(** * financial-toolkits: compound interest, loan amortization, time value
      of money and percentage arithmetic

    The Python sources compute on [float] and on [int].  Every function is
    embedded once, over an interface [PyFloat] of the float operations the
    sources use, and the interface is given two interpretations:

    - [Exact]: floats read as real numbers, the meaning of the formulas.
      Statements quantified over all inputs are proved here, and say so:
      they are statements about exact arithmetic.
    - [Binary64]: IEEE 754 double precision as CPython computes it, used to
      run the very same definitions on concrete inputs.  A run shows where
      rounding, overflow or underflow makes the code leave the formulas.

    Python signals errors by exceptions; a computation that can raise returns
    a [result]. *)

From Stdlib Require Import ZArith List Bool Lia.
From Stdlib Require Import Reals Ranalysis5 Lra.
From Stdlib Require Import Floats.
Import ListNotations.

(** ** Exceptions *)

Inductive exn : Type :=
| ValueError
| ZeroDivisionError
| OverflowError.

Inductive result (A : Type) : Type :=
| Ok (a : A)
| Raise (e : exn).

Arguments Ok {A} a.
Arguments Raise {A} e.

Definition bind {A B : Type} (m : result A) (k : A -> result B) : result B :=
  match m with
  | Ok a => k a
  | Raise e => Raise e
  end.

Declare Scope py_scope.
Delimit Scope py_scope with py.

Notation "x <- m ;; k" := (bind m (fun x => k))
  (at level 61, m at next level, right associativity) : py_scope.

Definition returns {A : Type} (m : result A) : Prop :=
  exists a, m = Ok a.

(** The list comprehension [[f(x) for x in xs]] for an [f] that can raise:
    the elements are computed in order and the first exception ends it. *)
Fixpoint py_map {A B : Type} (f : A -> result B) (xs : list A)
  : result (list B) :=
  match xs with
  | [] => Ok []
  | x :: rest =>
      match f x with
      | Ok y =>
          match py_map f rest with
          | Ok ys => Ok (y :: ys)
          | Raise e => Raise e
          end
      | Raise e => Raise e
      end
  end.

(** ** The float operations of the sources *)

Class PyFloat (F : Type) : Type := {
  (** [float(k)] for an int [k], also the implicit conversion in mixed
      int/float arithmetic, and float literals with an integral value. *)
  of_int : Z -> F;
  (** the decimal literal [m / 10^k], e.g. [0.99] is [decimal 99 2]. *)
  decimal : Z -> nat -> F;
  add : F -> F -> F;
  sub : F -> F -> F;
  mul : F -> F -> F;
  neg : F -> F;
  fabs : F -> F;
  (** [x / y]: ZeroDivisionError when [y == 0]. *)
  div : F -> F -> result F;
  (** [x ** k] for an int [k]. *)
  powi : F -> Z -> result F;
  eqb : F -> F -> bool;
  ltb : F -> F -> bool;
  leb : F -> F -> bool
}.

Declare Scope pyfloat_scope.
Delimit Scope pyfloat_scope with pf.

Infix "+" := add : pyfloat_scope.
Infix "-" := sub : pyfloat_scope.
Infix "*" := mul : pyfloat_scope.
Infix "/" := div : pyfloat_scope.
Infix "**" := powi (at level 30, right associativity) : pyfloat_scope.
Infix "==" := eqb (at level 70, no associativity) : pyfloat_scope.
Infix "<?" := ltb : pyfloat_scope.
Infix "<=?" := leb : pyfloat_scope.
Notation "x >? y" := (ltb y x) : pyfloat_scope.

(** ** Exact arithmetic *)

Module Exact.

Local Open Scope R_scope.

Definition Reqb (x y : R) : bool := if Req_dec_T x y then true else false.
Definition Rltb (x y : R) : bool := if Rlt_dec x y then true else false.
Definition Rleb (x y : R) : bool := if Rle_dec x y then true else false.

Definition Rdiv_py (x y : R) : result R :=
  if Req_dec_T y 0 then Raise ZeroDivisionError else Ok (x / y).

(** [0.0 ** k] raises for a negative [k]; [x ** 0] is [1.0]. *)
Definition Rpowi (x : R) (k : Z) : result R :=
  if (k <? 0)%Z && Reqb x 0 then Raise ZeroDivisionError
  else Ok (powerRZ x k).

#[export] Instance arith : PyFloat R := {|
  of_int := IZR;
  decimal := fun m k => IZR m / 10 ^ k;
  add := Rplus;
  sub := Rminus;
  mul := Rmult;
  neg := Ropp;
  fabs := Rabs;
  div := Rdiv_py;
  powi := Rpowi;
  eqb := Reqb;
  ltb := Rltb;
  leb := Rleb
|}.

End Exact.

(** ** IEEE 754 binary64, as CPython's [float] *)

Module Binary64.

Local Open Scope float_scope.

(** [float(k)] for [|k| < 2^63]: exact up to [2^53], rounded to nearest
    beyond. *)
Definition float_of_Z (k : Z) : float :=
  match k with
  | Z0 => PrimFloat.zero
  | Zpos _ => PrimFloat.of_uint63 (Uint63.of_Z k)
  | Zneg _ => - PrimFloat.of_uint63 (Uint63.of_Z (- k))
  end.

(** CPython's [float_div]: only a zero divisor raises. *)
Definition float_div (x y : float) : result float :=
  if y =? 0 then Raise ZeroDivisionError else Ok (x / y).

(** The literal [m / 10^k] is the double nearest to the quotient; for
    [|m| < 2^53] and [k <= 22] both operands are doubles and the division
    rounds to nearest. *)
Definition float_decimal (m : Z) (k : nat) : float :=
  float_of_Z m / float_of_Z (10 ^ Z.of_nat k).

Fixpoint pow_pos (x : float) (n : nat) : float :=
  match n with
  | O => 1
  | S O => x
  | S n' => pow_pos x n' * x
  end.

(** CPython's [float_pow] on an int exponent: [x ** 0] is [1.0],
    [0.0 ** k] raises for [k < 0], an overflowing result raises
    OverflowError and an underflowing one is [0.0].  The C library's
    [pow] is modelled by repeated rounded multiplication, which agrees
    with it for the exponents [0] and [1] and wherever the product
    underflows to zero. *)
Definition float_powi (x : float) (k : Z) : result float :=
  if (k =? 0)%Z then Ok 1
  else if (k <? 0)%Z && (x =? 0) then Raise ZeroDivisionError
  else
    let p := pow_pos x (Z.abs_nat k) in
    let r := if (k <? 0)%Z then 1 / p else p in
    if PrimFloat.is_infinity r && PrimFloat.is_finite x
    then Raise OverflowError
    else Ok r.

#[export] Instance arith : PyFloat float := {|
  of_int := float_of_Z;
  decimal := float_decimal;
  add := PrimFloat.add;
  sub := PrimFloat.sub;
  mul := PrimFloat.mul;
  neg := PrimFloat.opp;
  fabs := PrimFloat.abs;
  div := float_div;
  powi := float_powi;
  eqb := PrimFloat.eqb;
  ltb := PrimFloat.ltb;
  leb := PrimFloat.leb
|}.

End Binary64.

(** ** Values of [x ** y] with a float exponent

    For a negative base and a non-integral exponent Python 3 answers with a
    [complex]; the arithmetic that follows is complex arithmetic. *)

Inductive pyvalue (F : Type) : Type :=
| VFloat (x : F)
| VComplex (re im : F).

Arguments VFloat {F} x.
Arguments VComplex {F} re im.

Class PyMath (F : Type) `{PyFloat F} : Type := {
  (** [x ** y] for a float [y]. *)
  powf : F -> F -> result (pyvalue F);
  (** [math.log]: ValueError outside the domain. *)
  log : F -> result F
}.

(** [math.exp]. *)
Class PyExp (F : Type) : Type := {
  fexp : F -> result F
}.

Section Values.

Context {F : Type} `{PyFloat F}.
Local Open Scope py_scope.
Local Open Scope pyfloat_scope.

(** [a * v] *)
Definition vmul (a : F) (v : pyvalue F) : pyvalue F :=
  match v with
  | VFloat x => VFloat (a * x)
  | VComplex re im => VComplex (a * re) (a * im)
  end.

(** [v - a] *)
Definition vsub (v : pyvalue F) (a : F) : pyvalue F :=
  match v with
  | VFloat x => VFloat (x - a)
  | VComplex re im => VComplex (re - a) im
  end.

(** [a / v]: ZeroDivisionError when [v] is zero. *)
Definition vdiv (a : F) (v : pyvalue F) : result (pyvalue F) :=
  match v with
  | VFloat x => q <- a / x ;; Ok (VFloat q)
  | VComplex re im =>
      let d := re * re + im * im in
      r <- (a * re) / d ;;
      i <- neg (a * im) / d ;;
      Ok (VComplex r i)
  end.

End Values.

Module ExactMath.

Import Exact.
Local Open Scope R_scope.

Definition is_integral (y : R) : bool := Reqb (IZR (Int_part y)) y.

(** CPython's [float_pow]: [x ** 0.0] is [1.0]; [0.0 ** y] raises for
    [y < 0] and is [0.0] for [y > 0]; a negative base with a non-integral
    exponent goes to complex power, in polar form with argument [pi]. *)
Definition Rpowf (x y : R) : result (pyvalue R) :=
  if Reqb y 0 then Ok (VFloat 1)
  else if Reqb x 0 then
    if Rltb y 0 then Raise ZeroDivisionError else Ok (VFloat 0)
  else if Rltb 0 x then Ok (VFloat (Rpower x y))
  else if is_integral y then Ok (VFloat (powerRZ x (Int_part y)))
  else
    let len := Rpower (- x) y in
    Ok (VComplex (len * cos (PI * y)) (len * sin (PI * y))).

Definition Rlog (x : R) : result R :=
  if Rltb 0 x then Ok (ln x) else Raise ValueError.

#[export] Instance math : PyMath R := {|
  powf := Rpowf;
  log := Rlog
|}.

#[export] Instance exponential : PyExp R := {|
  fexp := fun x => Ok (exp x)
|}.

End ExactMath.

(** ** [**] with a float exponent, [math.log] and [math.exp] in binary64

    CPython decides the special cases and the exceptions itself and leaves
    the rest to the C library's [pow], [log] and [exp].  The special cases
    and exceptions below follow CPython.  The library's values are computed
    here by series in rounded arithmetic and can differ from the library's
    in the last digits.  They are the library's where the runs of this
    development depend on them: a power far beyond the range of doubles
    overflows or underflows to [0.0], a power of [2.0] or [0.5] is exact,
    and [log 1.0] is [0.0]. *)

Module Binary64Math.

Import Binary64.
Local Open Scope float_scope.

(** The integer a float is, when it is one. *)
Definition float_integral (y : float) : option Z :=
  match Prim2SF y with
  | S754_zero _ => Some 0%Z
  | S754_finite s m e =>
      let v := if s then Zneg m else Zpos m in
      if (0 <=? e)%Z then Some (v * 2 ^ e)%Z
      else if (Zpos m mod 2 ^ (- e) =? 0)%Z then Some (v / 2 ^ (- e))%Z
      else None
  | _ => None
  end.

Definition is_odd_integer (y : float) : bool :=
  match float_integral y with
  | Some k => Z.odd k
  | None => false
  end.

(** The integer below a finite float. *)
Definition float_floor (y : float) : Z :=
  match Prim2SF y with
  | S754_finite s m e =>
      let v := if s then Zneg m else Zpos m in
      if (0 <=? e)%Z then (v * 2 ^ e)%Z else (v / 2 ^ (- e))%Z
  | _ => 0%Z
  end.

(** [n] further terms of the series of [cos] and [sin]: each term is the
    one before it times [step / (i * (i + 1))], with [i] growing by 2. *)
Fixpoint series (n : nat) (step i term acc : float) : float :=
  match n with
  | O => acc
  | S n' =>
      let term' := term * step / (i * (i + 1)) in
      series n' step (i + 2) term' (acc + term')
  end.

Fixpoint exp_terms (n : nat) (x i term acc : float) : float :=
  match n with
  | O => acc
  | S n' =>
      let term' := term * x / i in
      exp_terms n' x (i + 1) term' (acc + term')
  end.

Fixpoint atanh_terms (n : nat) (z2 i pw acc : float) : float :=
  match n with
  | O => acc
  | S n' =>
      let pw' := pw * z2 in
      atanh_terms n' z2 (i + 2) pw' (acc + pw' / i)
  end.

Definition ln2 : float := 0x1.62e42fefa39efp-1.
Definition ln2_hi : float := 0x1.62e42feep-1.
Definition ln2_lo : float := 0x1.a39ef35793c76p-33.
Definition pio2 : float := 0x1.921fb54442d18p+0.
Definition pio2_lo : float := 0x1.1a62633145c07p-54.
Definition pi : float := 0x1.921fb54442d18p+1.
Definition sqrt_half : float := 0x1.6a09e667f3bcdp-1.

(** [exp x] as [2^k * exp r] with [x = k * ln 2 + r]. *)
Definition float_exp (x : float) : float :=
  if 1024 <? x then infinity
  else if x <? - 1100 then 0
  else
    let k := float_floor (x / ln2 + 0x1p-1) in
    let r := (x - float_of_Z k * ln2_hi) - float_of_Z k * ln2_lo in
    Z.ldexp (exp_terms 20 r 1 1 1) k.

(** [ln x] for [x >= 0]: [x = m * 2^e] with [m] near 1, and
    [ln m = 2 atanh ((m - 1) / (m + 1))].  [ln 1.0] is [0.0]. *)
Definition float_ln (x : float) : float :=
  if x =? 0 then neg_infinity
  else if PrimFloat.is_infinity x then x
  else
    let (m0, e0) := Z.frexp x in
    let m := if m0 <? sqrt_half then m0 * 2 else m0 in
    let e := if m0 <? sqrt_half then (e0 - 1)%Z else e0 in
    let z := (m - 1) / (m + 1) in
    float_of_Z e * ln2 + 2 * z * atanh_terms 20 (z * z) 3 1 1.

(** [cos x] and [sin x], the argument reduced by a multiple of [pi / 2]. *)
Definition float_cos_sin (x : float) : float * float :=
  let q := float_floor (x / pio2 + 0x1p-1) in
  let r := (x - float_of_Z q * pio2) - float_of_Z q * pio2_lo in
  let r2 := - (r * r) in
  let c := series 12 r2 1 1 1 in
  let s := series 12 r2 2 r r in
  match (q mod 4)%Z with
  | 0%Z => (c, s)
  | 1%Z => (- s, c)
  | 2%Z => (- c, - s)
  | _ => (s, - c)
  end.

(** CPython's [math.log]: ValueError for an argument that is zero or
    negative. *)
Definition float_log (x : float) : result float :=
  if PrimFloat.is_nan x then Ok x
  else if x <=? 0 then Raise ValueError
  else Ok (float_ln x).

(** CPython's [math.exp]: OverflowError when the result is infinite and the
    argument is not. *)
Definition float_math_exp (x : float) : result float :=
  let r := float_exp x in
  if PrimFloat.is_infinity r && PrimFloat.is_finite x
  then Raise OverflowError else Ok r.

(** The C library's [pow] on a finite base [a > 0] and a finite exponent
    that is not zero.  An exponent that is a whole number is taken as in
    [float_powi], by repeated rounded multiplication. *)
Definition c_pow (a y : float) : float :=
  match float_integral y with
  | Some k =>
      let p := pow_pos a (Z.abs_nat k) in
      if (k <? 0)%Z then 1 / p else p
  | None => float_exp (y * float_ln a)
  end.

(** CPython's [float_pow], case by case in its order.  A finite negative
    base under an exponent that is not a whole number goes to complex
    power: modulus [pow(|x|, y)], argument [pi * y], and
    OverflowError when the modulus or a part is infinite.  An infinite
    result of [pow] raises OverflowError, a result that underflows is
    [0.0]. *)
Definition float_powf (x y : float) : result (pyvalue float) :=
  if y =? 0 then Ok (VFloat 1)
  else if PrimFloat.is_nan x then Ok (VFloat x)
  else if PrimFloat.is_nan y then Ok (VFloat (if x =? 1 then 1 else y))
  else if PrimFloat.is_infinity y then
    let a := PrimFloat.abs x in
    if a =? 1 then Ok (VFloat 1)
    else if Bool.eqb (0 <? y) (1 <? a) then Ok (VFloat (PrimFloat.abs y))
    else Ok (VFloat 0)
  else if PrimFloat.is_infinity x then
    if 0 <? y
    then Ok (VFloat (if is_odd_integer y then x else PrimFloat.abs x))
    else Ok (VFloat (if is_odd_integer y && (x <? 0) then - 0 else 0))
  else if x =? 0 then
    if y <? 0 then Raise ZeroDivisionError
    else Ok (VFloat (if is_odd_integer y then x else 0))
  else
    let a := PrimFloat.abs x in
    match x <? 0, float_integral y with
    | true, None =>
        let len := c_pow a y in
        let (c, s) := float_cos_sin (pi * y) in
        if PrimFloat.is_infinity len || PrimFloat.is_infinity (len * c)
           || PrimFloat.is_infinity (len * s)
        then Raise OverflowError
        else Ok (VComplex (len * c) (len * s))
    | negative, _ =>
        let negate := negative && is_odd_integer y in
        if a =? 1 then Ok (VFloat (if negate then - 1 else 1))
        else
          let p := c_pow a y in
          if PrimFloat.is_infinity p then Raise OverflowError
          else Ok (VFloat (if negate then - p else p))
    end.

#[export] Instance math : PyMath float := {|
  powf := float_powf;
  log := float_log
|}.

#[export] Instance exponential : PyExp float := {|
  fexp := float_math_exp
|}.

End Binary64Math.

(** ** loan.py *)

Section LoanRecords.

Context {F : Type}.

Record AmortizationRow : Type := {
  month : Z;
  payment : F;
  principal_part : F;
  interest_part : F;
  remaining_balance : F;
  cumulative_interest : F;
  cumulative_principal : F
}.

Record LoanResult : Type := {
  principal : F;
  annual_rate : F;
  months : Z;
  monthly_payment : F;
  total_paid : F;
  total_interest : F;
  interest_ratio : F;
  schedule : list AmortizationRow
}.

End LoanRecords.

Arguments AmortizationRow F : clear implicits.
Arguments LoanResult F : clear implicits.

Module LoanAmortization.

Section Defs.

Context {F : Type} `{PyFloat F}.
Local Open Scope py_scope.
Local Open Scope pyfloat_scope.

Definition monthly_payment (principal annual_rate : F) (months : Z)
  : result F :=
  if principal <=? of_int 0 then Raise ValueError
  else if (months <? 1)%Z then Raise ValueError
  else
    rm <- annual_rate / of_int 12 ;;
    if rm == of_int 0 then principal / of_int months
    else
      g <- (of_int 1 + rm) ** months ;;
      g' <- (of_int 1 + rm) ** months ;;
      (principal * (rm * g)) / (g' - of_int 1).

(** The variables the loop of [schedule] carries from one month to the
    next. *)
Record loop_state : Type := {
  st_payment : F;
  st_balance : F;
  st_cum_interest : F;
  st_cum_principal : F
}.

(** One iteration of the loop body, for month [k]. *)
Definition schedule_step (rm : F) (k : Z) (st : loop_state)
  : loop_state * AmortizationRow F :=
  let interest := st_balance st * rm in
  let princ := st_payment st - interest in
  let overshoot := princ >? st_balance st in
  let princ := if overshoot then st_balance st else princ in
  let payment := if overshoot then princ + interest else st_payment st in
  let balance := st_balance st - princ in
  let balance := if balance <? of_int 0 then of_int 0 else balance in
  let cum_interest := st_cum_interest st + interest in
  let cum_principal := st_cum_principal st + princ in
  ({| st_payment := payment; st_balance := balance;
      st_cum_interest := cum_interest;
      st_cum_principal := cum_principal |},
   {| month := k; payment := payment; principal_part := princ;
      interest_part := interest; remaining_balance := balance;
      cumulative_interest := cum_interest;
      cumulative_principal := cum_principal |}).

(** [n] iterations starting at month [k]: the rows appended and the final
    loop variables. *)
Fixpoint schedule_loop (rm : F) (n : nat) (k : Z) (st : loop_state)
  : list (AmortizationRow F) * loop_state :=
  match n with
  | O => ([], st)
  | S n' =>
      let (st', row) := schedule_step rm k st in
      let (rows, st'') := schedule_loop rm n' (k + 1)%Z st' in
      (row :: rows, st'')
  end.

(** Python's [sum]: a left fold from the int [0]. *)
Definition py_sum (xs : list F) : F := fold_left add xs (of_int 0).

Definition schedule (principal annual_rate : F) (months : Z)
  : result (LoanResult F) :=
  rm <- annual_rate / of_int 12 ;;
  payment0 <- monthly_payment principal annual_rate months ;;
  let st0 := {| st_payment := payment0; st_balance := principal;
                st_cum_interest := of_int 0;
                st_cum_principal := of_int 0 |} in
  let (rows, st) := schedule_loop rm (Z.to_nat months) 1%Z st0 in
  let total_paid := py_sum (map payment rows) in
  ratio <- (if principal >? of_int 0
            then st_cum_interest st / principal
            else Ok (of_int 0)) ;;
  Ok (Build_LoanResult
        (* principal *) principal
        (* annual_rate *) annual_rate
        (* months *) months
        (* monthly_payment *)
        match rows with r :: _ => payment r | [] => of_int 0 end
        (* total_paid *) total_paid
        (* total_interest *) (st_cum_interest st)
        (* interest_ratio *) ratio
        (* schedule *) rows).

Definition affordable_principal (monthly_budget annual_rate : F)
  (months : Z) : result F :=
  rm <- annual_rate / of_int 12 ;;
  if rm == of_int 0 then Ok (monthly_budget * of_int months)
  else
    g <- (of_int 1 + rm) ** months ;;
    g' <- (of_int 1 + rm) ** months ;;
    factor <- (g - of_int 1) / (rm * g') ;;
    Ok (monthly_budget * factor).

Definition rate_comparison (principal : F) (months : Z) (rates : list F)
  : result (list (LoanResult F)) :=
  py_map (fun r => schedule principal r months) rates.

End Defs.

Arguments loop_state F : clear implicits.

End LoanAmortization.

(** ** time_value.py *)

Section TimeValueRecords.

Context {F : Type}.

Record TimeValueResult : Type := {
  present_value : pyvalue F;
  future_value : pyvalue F;
  rate : F;
  years : F;
  growth_factor : pyvalue F;
  discount_factor : pyvalue F
}.

End TimeValueRecords.

Arguments TimeValueResult F : clear implicits.

Module TimeValue.

Section Defs.

Context {F : Type} `{PyMath F}.
Local Open Scope py_scope.
Local Open Scope pyfloat_scope.

Definition future_value (pv rate years : F) : result (pyvalue F) :=
  g <- powf (of_int 1 + rate) years ;;
  Ok (vmul pv g).

Definition present_value (fv rate years : F) : result (pyvalue F) :=
  g <- powf (of_int 1 + rate) years ;;
  vdiv fv g.

Definition analyze (amount rate years : F) : result (TimeValueResult F) :=
  gf <- powf (of_int 1 + rate) years ;;
  pv <- vdiv amount gf ;;
  let fv := vmul amount gf in
  df <- vdiv (of_int 1) gf ;;
  Ok (Build_TimeValueResult
        (* present_value *) pv
        (* future_value *) fv
        (* rate *) rate
        (* years *) years
        (* growth_factor *) gf
        (* discount_factor *) df).

Definition rate_sweep (pv years : F) (rates : list F)
  : result (list (TimeValueResult F)) :=
  py_map (fun r => analyze pv r years) rates.

End Defs.

Section Irr.

Context {F : Type} `{PyFloat F}.
Local Open Scope py_scope.
Local Open Scope pyfloat_scope.

Definition fv_annuity (payment rate : F) (periods : Z) : result F :=
  if rate == of_int 0 then Ok (payment * of_int periods)
  else
    g <- (of_int 1 + rate) ** periods ;;
    (payment * (g - of_int 1)) / rate.

Definition pv_annuity (payment rate : F) (periods : Z) : result F :=
  if rate == of_int 0 then Ok (payment * of_int periods)
  else
    g <- (of_int 1 + rate) ** (- periods)%Z ;;
    (payment * (of_int 1 - g)) / rate.

(** [sum(cf / (1 + r) ** t for t, cf in enumerate(cashflows))], the
    flows from index [t] on added to the running total [acc]. *)
Fixpoint npv_from (r : F) (t : Z) (cashflows : list F) (acc : F)
  : result F :=
  match cashflows with
  | [] => Ok acc
  | cf :: rest =>
      d <- (of_int 1 + r) ** t ;;
      term <- cf / d ;;
      npv_from r (t + 1)%Z rest (acc + term)
  end.

Definition npv (cashflows : list F) (r : F) : result F :=
  npv_from r 0%Z cashflows (of_int 0).

(** [n] iterations of the bisection loop and the return after it. *)
Fixpoint bisect (cashflows : list F) (tol : F) (n : nat) (lo hi : F)
  : result F :=
  match n with
  | O => (lo + hi) / of_int 2
  | S n' =>
      mid <- (lo + hi) / of_int 2 ;;
      val <- npv cashflows mid ;;
      if fabs val <? tol then Ok mid
      else
        at_lo <- npv cashflows lo ;;
        if at_lo * val <? of_int 0
        then bisect cashflows tol n' lo mid
        else bisect cashflows tol n' mid hi
  end.

Definition lo0 : F := neg (decimal 99 2).
Definition hi0 : F := of_int 10.

(** [None] is Python's [None]. *)
Definition irr_bisect (cashflows : list F) (tol : F) (max_iter : Z)
  : result (option F) :=
  at_lo <- npv cashflows lo0 ;;
  at_hi <- npv cashflows hi0 ;;
  if at_lo * at_hi >? of_int 0 then Ok None
  else
    r <- bisect cashflows tol (Z.to_nat max_iter) lo0 hi0 ;;
    Ok (Some r).

(** The defaults [tol=1e-8] and [max_iter=200]. *)
Definition default_tol : F := decimal 1 8.
Definition default_max_iter : Z := 200.

End Irr.

End TimeValue.

(** ** compound_interest.py *)

Section CompoundRecords.

Context {F : Type}.

(** [principal], [rate], [n] and [years] carry the prefix [cr_]: the
    plain names are fields of the records above. *)
Record CompoundResult : Type := {
  cr_principal : F;
  cr_rate : F;
  cr_n : Z;
  cr_years : F;
  amount : pyvalue F;
  interest_earned : pyvalue F;
  effective_annual_rate : F
}.

(** A float or [float("inf")]. *)
Inductive float_or_inf : Type :=
| Finite (x : F)
| Infinity.

End CompoundRecords.

Arguments CompoundResult F : clear implicits.
Arguments float_or_inf F : clear implicits.

Module CompoundInterest.

Section Defs.

Context {F : Type} `{PyMath F}.
Local Open Scope py_scope.
Local Open Scope pyfloat_scope.

Definition calculate (principal rate : F) (n : Z) (years : F)
  : result (CompoundResult F) :=
  if principal <=? of_int 0 then Raise ValueError
  else if (n <? 1)%Z then Raise ValueError
  else
    q <- rate / of_int n ;;
    g <- powf (of_int 1 + q) (of_int n * years) ;;
    let amount := vmul principal g in
    q' <- rate / of_int n ;;
    e <- (of_int 1 + q') ** n ;;
    let eff_rate := e - of_int 1 in
    Ok (Build_CompoundResult
          (* principal *) principal
          (* rate *) rate
          (* n *) n
          (* years *) years
          (* amount *) amount
          (* interest_earned *) (vsub amount principal)
          (* effective_annual_rate *) eff_rate).

Definition doubling_time (rate : F) (n : Z) : result (float_or_inf F) :=
  if rate <=? of_int 0 then Ok Infinity
  else
    l2 <- log (of_int 2) ;;
    q <- rate / of_int n ;;
    l <- log (of_int 1 + q) ;;
    d <- l2 / (of_int n * l) ;;
    Ok (Finite d).

Definition rate_sweep (principal : F) (n : Z) (years : F) (rates : list F)
  : result (list (CompoundResult F)) :=
  py_map (fun r => calculate principal r n years) rates.

Definition frequency_sweep (principal rate years : F) (frequencies : list Z)
  : result (list (CompoundResult F)) :=
  py_map (fun n => calculate principal rate n years) frequencies.

End Defs.

Section Continuous.

Context {F : Type} `{PyFloat F} `{PyExp F}.
Local Open Scope py_scope.
Local Open Scope pyfloat_scope.

Definition continuous (principal rate years : F) : result F :=
  e <- fexp (rate * years) ;;
  Ok (principal * e).

End Continuous.

End CompoundInterest.

(** ** percentage.py *)

Section PercentageRecords.

Context {F : Type}.

Record PercentageResult : Type := {
  part : F;
  total : F;
  percentage : F;
  remaining : F;
  ratio : F
}.

End PercentageRecords.

Arguments PercentageResult F : clear implicits.

Module Percentage.

Section Defs.

Context {F : Type} `{PyFloat F}.
Local Open Scope py_scope.
Local Open Scope pyfloat_scope.

(** [Percentage.of]; [of] is a reserved word here. *)
Definition of_ (part total : F) : result (PercentageResult F) :=
  if total == of_int 0 then Raise ValueError
  else
    q <- part / total ;;
    let pct := q * of_int 100 in
    q' <- part / total ;;
    Ok {| part := part; total := total; percentage := pct;
          remaining := total - part; ratio := q' |}.

Definition value (percent total : F) : result F :=
  q <- percent / of_int 100 ;;
  Ok (q * total).

Definition find_total (part percent : F) : result F :=
  if percent == of_int 0 then Raise ValueError
  else (part * of_int 100) / percent.

Definition change (old new : F) : result F :=
  if old == of_int 0 then Raise ValueError
  else
    q <- (new - old) / fabs old ;;
    Ok (q * of_int 100).

Definition margin (revenue cost : F) : result F :=
  if revenue == of_int 0 then Raise ValueError
  else
    q <- (revenue - cost) / revenue ;;
    Ok (q * of_int 100).

Definition markup (cost selling_price : F) : result F :=
  if cost == of_int 0 then Raise ValueError
  else
    q <- (selling_price - cost) / cost ;;
    Ok (q * of_int 100).

End Defs.

End Percentage.

(** ** Notions used in the statements *)

(** Python's [xs[-1]] on a non-empty list. *)
Definition py_last {A : Type} (xs : list A) : option A :=
  last (map Some xs) None.

(** ** Closed forms and invariants, in exact arithmetic *)

Module ExactSpec.

Import Exact.
Local Open Scope R_scope.

(** The monthly rate and the annuity formula of the docstring. *)
Definition monthly_rate (annual_rate : R) : R := annual_rate / 12.

Definition annuity (principal rm : R) (n : nat) : R :=
  principal * (rm * (1 + rm) ^ n) / ((1 + rm) ^ n - 1).

Definition initial_state (payment0 principal : R) : LoanAmortization.loop_state R :=
  {| LoanAmortization.st_payment := payment0;
     LoanAmortization.st_balance := principal;
     LoanAmortization.st_cum_interest := 0;
     LoanAmortization.st_cum_principal := 0 |}.

(** What the loop maintains: the balance is not negative and the payment
    covers the interest on it. *)
Definition loop_inv (rm : R) (st : LoanAmortization.loop_state R) : Prop :=
  0 <= LoanAmortization.st_balance st /\
  LoanAmortization.st_balance st * rm <= LoanAmortization.st_payment st.

(** [rows_ok b ci cp rows]: the rows continue a schedule whose balance is
    [b] and whose running totals are [ci] and [cp]. *)
Fixpoint rows_ok (b ci cp : R) (rows : list (AmortizationRow R)) : Prop :=
  match rows with
  | [] => True
  | row :: rest =>
      payment row = principal_part row + interest_part row /\
      0 <= remaining_balance row <= b /\
      cumulative_interest row = ci + interest_part row /\
      cumulative_principal row = cp + principal_part row /\
      rows_ok (remaining_balance row) (cumulative_interest row)
              (cumulative_principal row) rest
  end.

Definition Rsum (xs : list R) : R := fold_right Rplus 0 xs.

(** The balance after [j] payments of an [n]-month loan at the monthly rate
    [rm]. *)
Definition balance_after (principal rm : R) (n j : nat) : R :=
  principal * ((1 + rm) ^ n - (1 + rm) ^ j) / ((1 + rm) ^ n - 1).

(** [sum over t of cashflows[t] / (1 + r)^t], the flows numbered from [t]. *)
Fixpoint npv_sum (r : R) (t : nat) (cashflows : list R) : R :=
  match cashflows with
  | [] => 0
  | cf :: rest => cf / (1 + r) ^ t + npv_sum r (S t) rest
  end.

(** The payments of an ordinary annuity carried to the end of period [n]:
    the sum of [payment * q^k] for [k < n]. *)
Fixpoint compounded_payments (payment q : R) (n : nat) : R :=
  match n with
  | O => 0
  | S k => compounded_payments payment q k + payment * q ^ k
  end.

(** The payments discounted to the start: the sum of [payment / q^k] for
    [1 <= k <= n]. *)
Fixpoint discounted_payments (payment q : R) (n : nat) : R :=
  match n with
  | O => 0
  | S k => discounted_payments payment q k + payment / q ^ S k
  end.


(** The balance of an interest-free loan after [j] of [n] payments. *)
Definition interest_free_balance (principal : R) (n j : nat) : R :=
  principal - INR j * (principal / INR n).


(** The payment and the balances of [schedule] at a rate that is not
    negative: the annuity and its closed form, or equal instalments. *)
Definition scheduled_payment (principal rm : R) (n : nat) : R :=
  if Req_dec_T rm 0 then principal / INR n else annuity principal rm n.

Definition scheduled_balance (principal rm : R) (n j : nat) : R :=
  if Req_dec_T rm 0 then interest_free_balance principal n j
  else balance_after principal rm n j.

End ExactSpec.

(** * Properties *)

(** ** The operations in exact arithmetic *)

Module ExactFacts.

Import Exact ExactMath.
Local Open Scope R_scope.

Lemma Reqb_true (x y : R) : x = y -> Reqb x y = true.
Proof. intros E. unfold Reqb. destruct (Req_dec_T x y); congruence. Qed.

Lemma Reqb_false (x y : R) : x <> y -> Reqb x y = false.
Proof. intros E. unfold Reqb. destruct (Req_dec_T x y); congruence. Qed.

Lemma Rltb_true (x y : R) : x < y -> Rltb x y = true.
Proof. intros E. unfold Rltb. destruct (Rlt_dec x y); tauto. Qed.

Lemma Rltb_false (x y : R) : y <= x -> Rltb x y = false.
Proof. intros E. unfold Rltb. destruct (Rlt_dec x y); [lra | reflexivity]. Qed.

Lemma Rleb_true (x y : R) : x <= y -> Rleb x y = true.
Proof. intros E. unfold Rleb. destruct (Rle_dec x y); tauto. Qed.

Lemma Rleb_false (x y : R) : y < x -> Rleb x y = false.
Proof. intros E. unfold Rleb. destruct (Rle_dec x y); [lra | reflexivity]. Qed.

Lemma Reqb_spec (x y : R) : reflect (x = y) (Reqb x y).
Proof. unfold Reqb. destruct (Req_dec_T x y); constructor; assumption. Qed.

Lemma Rltb_spec (x y : R) : reflect (x < y) (Rltb x y).
Proof. unfold Rltb. destruct (Rlt_dec x y); constructor; assumption. Qed.

Lemma Rleb_spec (x y : R) : reflect (x <= y) (Rleb x y).
Proof. unfold Rleb. destruct (Rle_dec x y); constructor; assumption. Qed.

Lemma div_ok (x y : R) : y <> 0 -> Rdiv_py x y = Ok (x / y).
Proof. intros E. unfold Rdiv_py. destruct (Req_dec_T y 0); congruence. Qed.

Lemma div_zero (x : R) : Rdiv_py x 0 = Raise ZeroDivisionError.
Proof. unfold Rdiv_py. destruct (Req_dec_T 0 0); congruence. Qed.

Lemma div_12 (x : R) : Rdiv_py x 12 = Ok (x / 12).
Proof. apply div_ok. lra. Qed.

Lemma div_2 (x : R) : Rdiv_py x 2 = Ok (x / 2).
Proof. apply div_ok. lra. Qed.

Lemma powi_nonneg (x : R) (k : Z) :
  (0 <= k)%Z -> Rpowi x k = Ok (x ^ Z.to_nat k).
Proof.
  intros Hk. unfold Rpowi.
  replace (k <? 0)%Z with false by (symmetry; apply Z.ltb_ge; exact Hk).
  simpl. f_equal.
  rewrite <- (Z2Nat.id k) at 1 by exact Hk.
  symmetry. apply pow_powerRZ.
Qed.

Lemma pow_gt_1 (q : R) (n : nat) : 1 < q -> (0 < n)%nat -> 1 < q ^ n.
Proof. intros Hq Hn. apply Rlt_pow_R1; assumption. Qed.

End ExactFacts.

(** *** The loop of [schedule] *)

Section ScheduleLoop.

Context {F : Type} `{PyFloat F}.


Lemma schedule_loop_S (rm : F) (n : nat) (k : Z)
  (st : LoanAmortization.loop_state F) :
  LoanAmortization.schedule_loop rm (S n) k st =
    (snd (LoanAmortization.schedule_step rm k st)
       :: fst (LoanAmortization.schedule_loop rm n (k + 1)%Z
                 (fst (LoanAmortization.schedule_step rm k st))),
     snd (LoanAmortization.schedule_loop rm n (k + 1)%Z
            (fst (LoanAmortization.schedule_step rm k st)))).
Proof.
  cbn [LoanAmortization.schedule_loop].
  destruct (LoanAmortization.schedule_step rm k st) as [st' row].
  cbn [fst snd].
  destruct (LoanAmortization.schedule_loop rm n (k + 1)%Z st') as [rows st''].
  reflexivity.
Qed.

Lemma schedule_loop_length (rm : F) (n : nat) :
  forall k st, length (fst (LoanAmortization.schedule_loop rm n k st)) = n.
Proof.
  induction n as [| n IH]; intros k st.
  - reflexivity.
  - rewrite schedule_loop_S. cbn [fst length]. f_equal. apply IH.
Qed.


End ScheduleLoop.

(** ** loan.py in exact arithmetic *)

Module LoanExact.

Import Exact ExactFacts ExactSpec.
Local Open Scope R_scope.

Lemma monthly_payment_valid (principal annual_rate : R) (months : Z) :
  0 < principal -> (1 <= months)%Z ->
  LoanAmortization.monthly_payment principal annual_rate months =
    let rm := monthly_rate annual_rate in
    if Reqb rm 0 then Ok (principal / IZR months)
    else Rdiv_py (principal * (rm * (1 + rm) ^ Z.to_nat months))
                 ((1 + rm) ^ Z.to_nat months - 1).
Proof.
  intros HP HN. unfold LoanAmortization.monthly_payment, monthly_rate. cbn.
  rewrite (Rleb_false _ _ HP).
  replace (months <? 1)%Z with false by (symmetry; apply Z.ltb_ge; exact HN).
  rewrite div_12. cbn.
  destruct (Reqb (annual_rate / 12) 0).
  - apply div_ok. apply not_0_IZR. lia.
  - rewrite powi_nonneg by lia. cbn. reflexivity.
Qed.

Lemma monthly_payment_invalid (principal annual_rate : R) (months : Z) :
  principal <= 0 \/ (months < 1)%Z ->
  LoanAmortization.monthly_payment principal annual_rate months = Raise ValueError.
Proof.
  intros Hbad. unfold LoanAmortization.monthly_payment. cbn.
  destruct (Rleb_spec principal 0) as [HP | HP]; [reflexivity |].
  destruct Hbad as [Hbad | Hbad]; [contradiction |].
  replace (months <? 1)%Z with true by (symmetry; apply Z.ltb_lt; exact Hbad).
  reflexivity.
Qed.

(** C5, as amended: in exact arithmetic, for [principal > 0] and
    [months >= 1], [monthly_payment] returns [principal / months] when
    [annual_rate / 12 = 0]; otherwise it returns
    [principal * rm * (1 + rm)^months / ((1 + rm)^months - 1)] provided
    the denominator is not zero, and raises ZeroDivisionError when it is
    (which needs [rm = -2] and an even [months]).  (In binary64 the power
    can overflow and the denominator can round to zero; see
    [monthly_payment_out_of_range].) *)
Theorem monthly_payment_formula (principal annual_rate : R) (months : Z) :
  0 < principal -> (1 <= months)%Z ->
  let rm := annual_rate / 12 in
  let n := Z.to_nat months in
  (rm = 0 ->
   LoanAmortization.monthly_payment principal annual_rate months
     = Ok (principal / IZR months)) /\
  (rm <> 0 -> (1 + rm) ^ n <> 1 ->
   LoanAmortization.monthly_payment principal annual_rate months
     = Ok (principal * (rm * (1 + rm) ^ n) / ((1 + rm) ^ n - 1))) /\
  (rm <> 0 -> (1 + rm) ^ n = 1 ->
   LoanAmortization.monthly_payment principal annual_rate months = Raise ZeroDivisionError).
Proof.
  intros HP HN rm n.
  rewrite (monthly_payment_valid _ _ _ HP HN). unfold monthly_rate. cbv zeta.
  fold rm. fold n.
  repeat split.
  - intros E. rewrite (Reqb_true _ _ E). reflexivity.
  - intros E D. rewrite (Reqb_false _ _ E). apply div_ok. lra.
  - intros E D. rewrite (Reqb_false _ _ E). rewrite D.
    replace (1 - 1) with 0 by ring. apply div_zero.
Qed.

Lemma monthly_payment_formula_witness :
  0 < 1200 /\ (1 <= 12)%Z /\
  LoanAmortization.monthly_payment (F := R) 1200 0 12 = Ok (1200 / 12) /\
  LoanAmortization.monthly_payment (F := R) 1200 12 1
    = Ok (1200 * (12 / 12 * (1 + 12 / 12) ^ 1) / ((1 + 12 / 12) ^ 1 - 1)).
Proof.
  assert (HP : 0 < 1200) by lra.
  assert (HN : (1 <= 12)%Z) by lia.
  assert (HN1 : (1 <= 1)%Z) by lia.
  repeat split; try assumption.
  - apply (monthly_payment_formula 1200 0 12 HP HN). lra.
  - apply (monthly_payment_formula 1200 12 1 HP HN1); simpl; lra.
Defined.

Lemma monthly_payment_zero_denominator :
  LoanAmortization.monthly_payment (F := R) 1000 (-24) 2
    = Raise ZeroDivisionError.
Proof.
  assert (HP : 0 < 1000) by lra.
  assert (HN : (1 <= 2)%Z) by lia.
  rewrite (monthly_payment_valid _ _ _ HP HN). unfold monthly_rate.
  cbv zeta. rewrite Reqb_false by lra.
  replace ((1 + -24 / 12) ^ Z.to_nat 2 - 1) with 0.
  - apply div_zero.
  - change (Z.to_nat 2) with 2%nat. simpl. field.
Qed.

(** C5, as stated, fails: at the annual rate [-24] and 2 months the
    monthly rate is [-2], not zero, the denominator [(1 - 2)^2 - 1] is
    zero, and the call raises instead of returning the annuity value. *)
Lemma monthly_payment_formula_counterexample :
  0 < 1000 /\ (1 <= 2)%Z /\ -24 / 12 <> 0 /\
  LoanAmortization.monthly_payment (F := R) 1000 (-24) 2
    = Raise ZeroDivisionError /\
  ~ returns (LoanAmortization.monthly_payment (F := R) 1000 (-24) 2).
Proof.
  repeat split; try lra; try lia.
  - exact monthly_payment_zero_denominator.
  - intros [a Ha]. rewrite monthly_payment_zero_denominator in Ha.
    discriminate.
Qed.

(** *** [schedule] *)

(** Once [monthly_payment] has returned, [schedule] returns the rows of its
    loop. *)
Lemma schedule_rows (principal annual_rate payment0 : R) (months : Z) :
  0 < principal ->
  LoanAmortization.monthly_payment principal annual_rate months = Ok payment0 ->
  exists res,
    LoanAmortization.schedule principal annual_rate months = Ok res /\
    schedule res =
      fst (LoanAmortization.schedule_loop (annual_rate / 12)
             (Z.to_nat months) 1%Z (initial_state payment0 principal)).
Proof.
  intros HP HM. unfold LoanAmortization.schedule.
  change (div annual_rate (of_int 12)) with (Rdiv_py annual_rate 12).
  rewrite div_12. cbn [bind]. rewrite HM. cbn [bind].
  change (of_int 0) with 0. fold (initial_state payment0 principal).
  destruct (LoanAmortization.schedule_loop (annual_rate / 12)
              (Z.to_nat months) 1%Z (initial_state payment0 principal))
    as [rows st].
  change (ltb 0 principal) with (Rltb 0 principal).
  rewrite (Rltb_true _ _ HP).
  change (div (LoanAmortization.st_cum_interest st) principal)
    with (Rdiv_py (LoanAmortization.st_cum_interest st) principal).
  rewrite div_ok by lra. cbn [bind].
  eexists. split; reflexivity.
Qed.

Lemma schedule_invalid (principal annual_rate : R) (months : Z) :
  principal <= 0 \/ (months < 1)%Z ->
  LoanAmortization.schedule principal annual_rate months = Raise ValueError.
Proof.
  intros Hbad. unfold LoanAmortization.schedule.
  change (div annual_rate (of_int 12)) with (Rdiv_py annual_rate 12).
  rewrite div_12. cbn [bind].
  rewrite (monthly_payment_invalid _ _ _ Hbad). reflexivity.
Qed.

Lemma schedule_raises (principal annual_rate : R) (months : Z) (e : exn) :
  LoanAmortization.monthly_payment principal annual_rate months = Raise e ->
  LoanAmortization.schedule principal annual_rate months = Raise e.
Proof.
  intros HM. unfold LoanAmortization.schedule.
  change (div annual_rate (of_int 12)) with (Rdiv_py annual_rate 12).
  rewrite div_12. cbn [bind]. rewrite HM. reflexivity.
Qed.

(** *** Row invariants *)

Lemma schedule_step_inv (rm : R) (k : Z) (st : LoanAmortization.loop_state R) :
  0 <= rm -> loop_inv rm st ->
  let st' := fst (LoanAmortization.schedule_step rm k st) in
  let row := snd (LoanAmortization.schedule_step rm k st) in
  loop_inv rm st' /\
  payment row = principal_part row + interest_part row /\
  0 <= remaining_balance row <= LoanAmortization.st_balance st /\
  cumulative_interest row
    = LoanAmortization.st_cum_interest st + interest_part row /\
  cumulative_principal row
    = LoanAmortization.st_cum_principal st + principal_part row /\
  LoanAmortization.st_balance st' = remaining_balance row /\
  LoanAmortization.st_cum_interest st' = cumulative_interest row /\
  LoanAmortization.st_cum_principal st' = cumulative_principal row.
Proof.
  intros Hrm [Hb Hpay]. destruct st as [pay b ci cp]. cbn in Hb, Hpay.
  unfold LoanAmortization.schedule_step, loop_inv. cbn.
  destruct (Rltb_spec b (pay - b * rm)) as [Hover | Hover].
  - (* overshoot: the principal part is clamped to the balance *)
    replace (b - b) with 0 by ring.
    rewrite Rltb_false by lra. cbn.
    repeat split; try lra; nra.
  - destruct (Rltb_spec (b - (pay - b * rm)) 0) as [Hneg | Hneg]; [lra |].
    cbn. repeat split; try lra; nra.
Qed.

Lemma schedule_loop_rows_ok (rm : R) (n : nat) :
  0 <= rm ->
  forall k st,
    loop_inv rm st ->
    rows_ok (LoanAmortization.st_balance st)
            (LoanAmortization.st_cum_interest st)
            (LoanAmortization.st_cum_principal st)
            (fst (LoanAmortization.schedule_loop rm n k st)).
Proof.
  intros Hrm. induction n as [| n IH]; intros k st Hinv.
  - exact I.
  - rewrite schedule_loop_S. cbn [fst rows_ok].
    destruct (schedule_step_inv rm k st Hrm Hinv)
      as (Hinv' & Hp & Hb & Hci & Hcp & Eb & Eci & Ecp).
    repeat split; try tauto.
    rewrite <- Eb, <- Eci, <- Ecp. apply IH. exact Hinv'.
Qed.

(** The statement of the row invariants by position. *)
Lemma rows_ok_nth (rows : list (AmortizationRow R)) :
  forall b ci cp i row,
    rows_ok b ci cp rows ->
    nth_error rows i = Some row ->
    payment row = principal_part row + interest_part row /\
    0 <= remaining_balance row <= b /\
    (forall next, nth_error rows (S i) = Some next ->
                  remaining_balance next <= remaining_balance row) /\
    cumulative_interest row
      = ci + Rsum (map interest_part (firstn (S i) rows)) /\
    cumulative_principal row
      = cp + Rsum (map principal_part (firstn (S i) rows)).
Proof.
  induction rows as [| r rest IH]; intros b ci cp i row Hok Hnth.
  - destruct i; discriminate.
  - cbn [rows_ok] in Hok. destruct Hok as (Hp & Hb & Hci & Hcp & Hrest).
    destruct i as [| i].
    + injection Hnth as <-. repeat split; try tauto.
      * intros next Hnext. cbn in Hnext.
        destruct rest as [| r' rest']; [discriminate |].
        injection Hnext as <-. cbn [rows_ok] in Hrest. tauto.
      * cbn. lra.
      * cbn. lra.
    + cbn [nth_error] in Hnth.
      destruct (IH _ _ _ i row Hrest Hnth) as (Hp' & Hb' & Hn' & Hci' & Hcp').
      repeat split; try tauto; try lra.
      * change (firstn (S (S i)) (r :: rest)) with (r :: firstn (S i) rest).
        cbn [map Rsum fold_right]. unfold Rsum in Hci'. lra.
      * change (firstn (S (S i)) (r :: rest)) with (r :: firstn (S i) rest).
        cbn [map Rsum fold_right]. unfold Rsum in Hcp'. lra.
Qed.

Lemma monthly_payment_covers_interest (principal annual_rate : R) (months : Z) :
  0 < principal -> 0 <= annual_rate -> (1 <= months)%Z ->
  exists payment0,
    LoanAmortization.monthly_payment principal annual_rate months = Ok payment0 /\
    principal * (annual_rate / 12) <= payment0.
Proof.
  intros HP Hr HN. rewrite (monthly_payment_valid _ _ _ HP HN).
  unfold monthly_rate. cbv zeta.
  set (rm := annual_rate / 12). set (n := Z.to_nat months).
  assert (Hrm : 0 <= rm) by (unfold rm; lra).
  destruct (Reqb_spec rm 0) as [E | E].
  - eexists. split; [reflexivity |]. rewrite E.
    assert (0 < IZR months) by (apply IZR_lt; lia).
    assert (0 < / IZR months) by (apply Rinv_0_lt_compat; assumption).
    unfold Rdiv. nra.
  - assert (Hn : (0 < n)%nat) by (unfold n; lia).
    assert (Hq : 1 < (1 + rm) ^ n) by (apply pow_gt_1; [lra | exact Hn]).
    rewrite div_ok by lra. eexists. split; [reflexivity |].
    set (g := (1 + rm) ^ n) in *.
    assert (Hd : 0 < / (g - 1)) by (apply Rinv_0_lt_compat; lra).
    replace (principal * (rm * g) / (g - 1))
      with (principal * rm + principal * rm * / (g - 1)) by (field; lra).
    assert (0 <= principal * rm) by nra.
    nra.
Qed.

(** C3, as amended: in exact arithmetic, for [principal > 0],
    [annual_rate >= 0] and [months >= 1], [schedule] returns, and every row
    of the schedule has [payment = principal_part + interest_part] and a
    non-negative [remaining_balance] that is not larger than the one of the
    row before; [cumulative_interest] and [cumulative_principal] of row [i]
    are the sums of [interest_part] and [principal_part] over the rows up
    to [i].  (In binary64 the two parts are rounded one by one and their
    sum can miss the payment by a unit in the last place; see
    [schedule_row_invariants_counterexample].) *)
Theorem schedule_row_invariants (principal annual_rate : R) (months : Z) :
  0 < principal -> 0 <= annual_rate -> (1 <= months)%Z ->
  exists res,
    LoanAmortization.schedule principal annual_rate months = Ok res /\
    length (schedule res) = Z.to_nat months /\
    forall i row,
      nth_error (schedule res) i = Some row ->
      payment row = principal_part row + interest_part row /\
      0 <= remaining_balance row /\
      (forall next, nth_error (schedule res) (S i) = Some next ->
                    remaining_balance next <= remaining_balance row) /\
      cumulative_interest row
        = Rsum (map interest_part (firstn (S i) (schedule res))) /\
      cumulative_principal row
        = Rsum (map principal_part (firstn (S i) (schedule res))).
Proof.
  intros HP Hr HN.
  destruct (monthly_payment_covers_interest _ _ _ HP Hr HN) as [M [HM Hcov]].
  destruct (schedule_rows _ _ _ _ HP HM) as [res [Hres Hrows]].
  exists res. split; [exact Hres |]. rewrite Hrows. split.
  - apply schedule_loop_length.
  - intros i row Hnth.
    assert (Hinv : loop_inv (annual_rate / 12) (initial_state M principal)).
    { split; cbn; lra. }
    assert (Hrm : 0 <= annual_rate / 12) by lra.
    pose proof (schedule_loop_rows_ok _ (Z.to_nat months) Hrm 1%Z _ Hinv) as Hok.
    destruct (rows_ok_nth _ _ _ _ i row Hok Hnth) as (A & B & C & D & E).
    change (LoanAmortization.st_cum_interest (initial_state M principal))
      with 0 in D.
    change (LoanAmortization.st_cum_principal (initial_state M principal))
      with 0 in E.
    rewrite Rplus_0_l in D, E.
    repeat split; try assumption. apply B.
Qed.

Lemma schedule_row_invariants_witness :
  0 < 1000 /\ 0 <= 12 / 100 /\ (1 <= 6)%Z /\
  exists res,
    LoanAmortization.schedule (F := R) 1000 (12 / 100) 6 = Ok res /\
    length (schedule res) = 6%nat /\
    forall i row,
      nth_error (schedule res) i = Some row ->
      payment row = principal_part row + interest_part row /\
      0 <= remaining_balance row /\
      (forall next, nth_error (schedule res) (S i) = Some next ->
                    remaining_balance next <= remaining_balance row) /\
      cumulative_interest row
        = Rsum (map interest_part (firstn (S i) (schedule res))) /\
      cumulative_principal row
        = Rsum (map principal_part (firstn (S i) (schedule res))).
Proof.
  assert (HP : 0 < 1000) by lra.
  assert (Hr : 0 <= 12 / 100) by lra.
  assert (HN : (1 <= 6)%Z) by lia.
  repeat split; try assumption.
  exact (schedule_row_invariants 1000 (12 / 100) 6 HP Hr HN).
Defined.

(** *** The balance in closed form *)

Lemma balance_after_0 (principal rm : R) (n : nat) :
  0 < rm -> (0 < n)%nat -> balance_after principal rm n 0 = principal.
Proof.
  intros Hrm Hn. unfold balance_after.
  assert (1 < (1 + rm) ^ n) by (apply pow_gt_1; [lra | exact Hn]).
  simpl. field. lra.
Qed.

Lemma balance_after_end (principal rm : R) (n : nat) :
  balance_after principal rm n n = 0.
Proof. unfold balance_after. unfold Rdiv. ring. Qed.

Lemma balance_after_nonneg (principal rm : R) (n j : nat) :
  0 < principal -> 0 < rm -> (j <= n)%nat -> (0 < n)%nat ->
  0 <= balance_after principal rm n j.
Proof.
  intros HP Hrm Hj Hn. unfold balance_after.
  assert (Hg : 1 < (1 + rm) ^ n) by (apply pow_gt_1; [lra | exact Hn]).
  assert (Hle : (1 + rm) ^ j <= (1 + rm) ^ n) by (apply Rle_pow; [lra | exact Hj]).
  assert (Hd : 0 < / ((1 + rm) ^ n - 1)) by (apply Rinv_0_lt_compat; lra).
  unfold Rdiv. apply Rmult_le_pos; [| lra]. nra.
Qed.

Lemma balance_after_step (principal rm : R) (n j : nat) :
  0 < rm -> (0 < n)%nat ->
  balance_after principal rm n j
    - (annuity principal rm n - balance_after principal rm n j * rm)
  = balance_after principal rm n (S j).
Proof.
  intros Hrm Hn. unfold balance_after, annuity.
  assert (1 < (1 + rm) ^ n) by (apply pow_gt_1; [lra | exact Hn]).
  simpl. field. lra.
Qed.




(** *** [affordable_principal] *)

Lemma affordable_principal_eq (monthly_budget annual_rate : R) (months : Z) :
  (0 <= months)%Z ->
  LoanAmortization.affordable_principal monthly_budget annual_rate months =
    let rm := annual_rate / 12 in
    let g := (1 + rm) ^ Z.to_nat months in
    if Reqb rm 0 then Ok (monthly_budget * IZR months)
    else bind (Rdiv_py (g - 1) (rm * g))
              (fun factor => Ok (monthly_budget * factor)).
Proof.
  intros HN. unfold LoanAmortization.affordable_principal. cbn.
  rewrite div_12. cbn.
  destruct (Reqb (annual_rate / 12) 0); [reflexivity |].
  rewrite powi_nonneg by exact HN. reflexivity.
Qed.

(** C7, as amended: in exact arithmetic, for [monthly_budget > 0],
    [annual_rate >= 0] and [months >= 1], [affordable_principal] returns a
    principal whose [monthly_payment] at the same rate and term is
    [monthly_budget], and when [annual_rate / 12 = 0] that principal is
    [monthly_budget * months].  (In binary64 a rate too small to change
    [1 + rm] gives the principal [0.0]; see
    [affordable_principal_inverse_counterexample].) *)
Theorem affordable_principal_inverse (monthly_budget annual_rate : R)
  (months : Z) :
  0 < monthly_budget -> 0 <= annual_rate -> (1 <= months)%Z ->
  exists p,
    LoanAmortization.affordable_principal monthly_budget annual_rate months
      = Ok p /\
    LoanAmortization.monthly_payment p annual_rate months = Ok monthly_budget /\
    (annual_rate / 12 = 0 -> p = monthly_budget * IZR months).
Proof.
  intros Hb Hr HN.
  rewrite affordable_principal_eq by lia. cbv zeta.
  set (rm := annual_rate / 12). set (n := Z.to_nat months).
  assert (Hrm : 0 <= rm) by (unfold rm; lra).
  assert (HNR : 0 < IZR months) by (apply IZR_lt; lia).
  destruct (Reqb_spec rm 0) as [E | E].
  - exists (monthly_budget * IZR months). split; [reflexivity |].
    assert (HP : 0 < monthly_budget * IZR months) by nra.
    split; [| reflexivity].
    rewrite (monthly_payment_valid _ _ _ HP HN). unfold monthly_rate.
    cbv zeta. fold rm. rewrite (Reqb_true _ _ E). f_equal. field. lra.
  - assert (Hn : (0 < n)%nat) by (unfold n; lia).
    assert (Hg : 1 < (1 + rm) ^ n) by (apply pow_gt_1; [lra | exact Hn]).
    set (g := (1 + rm) ^ n) in *.
    assert (Hrg : 0 < rm * g) by nra.
    rewrite div_ok by lra. cbn [bind].
    exists (monthly_budget * ((g - 1) / (rm * g))). split; [reflexivity |].
    assert (Hf : 0 < (g - 1) / (rm * g)).
    { apply Rdiv_lt_0_compat; lra. }
    assert (HP : 0 < monthly_budget * ((g - 1) / (rm * g))) by nra.
    split; [| intros E0; contradiction].
    rewrite (monthly_payment_valid _ _ _ HP HN). unfold monthly_rate.
    cbv zeta. fold rm. fold n. fold g. rewrite (Reqb_false _ _ E).
    rewrite div_ok by lra. f_equal. field. lra.
Qed.

Lemma affordable_principal_inverse_witness :
  0 < 100 /\ 0 <= 12 / 100 /\ (1 <= 12)%Z /\
  exists p,
    LoanAmortization.affordable_principal (F := R) 100 (12 / 100) 12 = Ok p /\
    LoanAmortization.monthly_payment p (12 / 100) 12 = Ok 100 /\
    (12 / 100 / 12 = 0 -> p = 100 * 12).
Proof.
  assert (Hb : 0 < 100) by lra.
  assert (Hr : 0 <= 12 / 100) by lra.
  assert (HN : (1 <= 12)%Z) by lia.
  repeat split; try assumption.
  exact (affordable_principal_inverse 100 (12 / 100) 12 Hb Hr HN).
Defined.

End LoanExact.

(** ** time_value.py in exact arithmetic *)

Module TimeValueExact.

Import Exact ExactMath ExactFacts ExactSpec.
Local Open Scope R_scope.

Lemma powf_positive_base (x y : R) :
  0 < x -> Rpowf x y = Ok (VFloat (Rpower x y)).
Proof.
  intros Hx. unfold Rpowf.
  destruct (Reqb_spec y 0) as [E | E].
  - subst y. rewrite Rpower_O by exact Hx. reflexivity.
  - rewrite Reqb_false by lra. rewrite Rltb_true by exact Hx. reflexivity.
Qed.

Lemma Rpower_pos (x y : R) : 0 < Rpower x y.
Proof. unfold Rpower. apply exp_pos. Qed.

Lemma future_value_eq (pv rate years : R) :
  -1 < rate ->
  TimeValue.future_value pv rate years
    = Ok (VFloat (pv * Rpower (1 + rate) years)).
Proof.
  intros Hr. unfold TimeValue.future_value. cbn.
  rewrite powf_positive_base by lra. reflexivity.
Qed.

Lemma present_value_eq (fv rate years : R) :
  -1 < rate ->
  TimeValue.present_value fv rate years
    = Ok (VFloat (fv / Rpower (1 + rate) years)).
Proof.
  intros Hr. unfold TimeValue.present_value. cbn.
  rewrite powf_positive_base by lra. cbn.
  pose proof (Rpower_pos (1 + rate) years).
  rewrite div_ok by lra. reflexivity.
Qed.

(** C8, as amended: in exact arithmetic, for [rate > -1], [future_value]
    returns a float [fv] and [present_value fv rate years] returns [pv].
    (In binary64 the power can overflow, which raises, or underflow to
    [0.0], which the division then meets; see
    [present_value_future_value_counterexample].) *)
Theorem present_value_future_value (pv rate years : R) :
  -1 < rate ->
  exists fv,
    TimeValue.future_value pv rate years = Ok (VFloat fv) /\
    TimeValue.present_value fv rate years = Ok (VFloat pv).
Proof.
  intros Hr. exists (pv * Rpower (1 + rate) years).
  split; [apply future_value_eq; exact Hr |].
  rewrite present_value_eq by exact Hr.
  pose proof (Rpower_pos (1 + rate) years).
  do 2 f_equal. field. lra.
Qed.

Lemma present_value_future_value_witness :
  -1 < 1 /\
  exists fv,
    TimeValue.future_value (F := R) 250 1 3 = Ok (VFloat fv) /\
    TimeValue.present_value fv 1 3 = Ok (VFloat 250).
Proof.
  assert (Hr : -1 < 1) by lra.
  split; [exact Hr |].
  exact (present_value_future_value 250 1 3 Hr).
Defined.

Lemma analyze_eq (amount rate years : R) :
  -1 < rate ->
  TimeValue.analyze amount rate years =
    let gf := Rpower (1 + rate) years in
    Ok {| present_value := VFloat (amount / gf);
          future_value := VFloat (amount * gf);
          rate := rate;
          years := years;
          growth_factor := VFloat gf;
          discount_factor := VFloat (1 / gf) |}.
Proof.
  intros Hr. unfold TimeValue.analyze. cbn.
  rewrite powf_positive_base by lra. cbn.
  pose proof (Rpower_pos (1 + rate) years).
  rewrite !div_ok by lra. reflexivity.
Qed.

(** C2, as amended: in exact arithmetic, for [rate > -1], [analyze]
    returns floats with [present_value * growth_factor = amount] and
    [future_value = amount * growth_factor], so that
    [present_value * growth_factor * growth_factor = future_value].  (In
    binary64 the growth factor can overflow or underflow and [analyze] then
    raises; see [analyze_out_of_range].) *)
Theorem analyze_growth_factor (amount rate years : R) :
  -1 < rate ->
  exists res pv fv gf,
    TimeValue.analyze amount rate years = Ok res /\
    present_value res = VFloat pv /\
    future_value res = VFloat fv /\
    growth_factor res = VFloat gf /\
    pv * gf = amount /\
    fv = amount * gf /\
    pv * gf * gf = fv.
Proof.
  intros Hr. rewrite analyze_eq by exact Hr. cbv zeta.
  pose proof (Rpower_pos (1 + rate) years) as Hg.
  set (g := Rpower (1 + rate) years) in *.
  eexists. exists (amount / g), (amount * g), g.
  split; [reflexivity |]. cbn.
  repeat split; field; lra.
Qed.

Lemma analyze_growth_factor_witness :
  -1 < 1 /\
  exists res pv fv gf,
    TimeValue.analyze (F := R) 100 1 1 = Ok res /\
    present_value res = VFloat pv /\
    future_value res = VFloat fv /\
    growth_factor res = VFloat gf /\
    pv * gf = 100 /\
    fv = 100 * gf /\
    pv * gf * gf = fv.
Proof.
  assert (Hr : -1 < 1) by lra.
  split; [exact Hr |].
  exact (analyze_growth_factor 100 1 1 Hr).
Defined.

(** C2, as stated, fails: [analyze(100, 1, 1)] has the growth factor 2, the
    present value 50 and the future value 200, and [50 * 2] is 100. *)
Lemma analyze_growth_factor_counterexample :
  -1 < 1 /\
  exists res,
    TimeValue.analyze (F := R) 100 1 1 = Ok res /\
    present_value res = VFloat 50 /\
    growth_factor res = VFloat 2 /\
    future_value res = VFloat 200 /\
    50 * 2 <> 200 /\
    200 - 50 * 2 = 100.
Proof.
  split; [lra |].
  rewrite analyze_eq by lra. cbv zeta.
  replace (1 + 1) with 2 by ring.
  rewrite Rpower_1 by lra.
  eexists. split; [reflexivity |]. cbn.
  repeat split; try (f_equal; lra); lra.
Qed.

(** *** [irr_bisect] *)

Lemma npv_from_exact (r : R) (cashflows : list R) :
  -1 < r ->
  forall t acc,
    TimeValue.npv_from r (Z.of_nat t) cashflows acc
      = Ok (acc + npv_sum r t cashflows).
Proof.
  intros Hr. induction cashflows as [| cf rest IH]; intros t acc.
  - cbn. f_equal. ring.
  - cbn [TimeValue.npv_from npv_sum].
    change (powi (add (of_int 1) r) (Z.of_nat t))
      with (Rpowi (1 + r) (Z.of_nat t)).
    rewrite powi_nonneg by lia. rewrite Nat2Z.id. cbn [bind].
    assert (Hp : 0 < (1 + r) ^ t) by (apply pow_lt; lra).
    change (div cf ((1 + r) ^ t)) with (Rdiv_py cf ((1 + r) ^ t)).
    rewrite div_ok by lra. cbn [bind].
    replace (Z.of_nat t + 1)%Z with (Z.of_nat (S t)) by lia.
    rewrite IH. f_equal. cbn. ring.
Qed.

Lemma npv_exact (cashflows : list R) (r : R) :
  -1 < r -> TimeValue.npv cashflows r = Ok (npv_sum r 0 cashflows).
Proof.
  intros Hr. unfold TimeValue.npv.
  rewrite (npv_from_exact r cashflows Hr 0%nat). f_equal. cbn. ring.
Qed.

Lemma npv_sum_positive (r : R) (cashflows : list R) :
  -1 < r -> cashflows <> [] -> Forall (fun cf => 0 < cf) cashflows ->
  forall t, 0 < npv_sum r t cashflows.
Proof.
  intros Hr Hne Hall. induction Hall as [| cf rest Hcf Hrest IH].
  - contradiction.
  - intros t. cbn [npv_sum].
    assert (Hp : 0 < (1 + r) ^ t) by (apply pow_lt; lra).
    assert (Hq : 0 < cf / (1 + r) ^ t) by (apply Rdiv_lt_0_compat; assumption).
    destruct rest as [| cf' rest'].
    + cbn. lra.
    + assert (0 < npv_sum r (S t) (cf' :: rest')) by (apply IH; discriminate).
      lra.
Qed.

Lemma lo0_exact : TimeValue.lo0 (F := R) = - (99 / 100).
Proof. unfold TimeValue.lo0. cbn. f_equal. f_equal. lra. Qed.

Lemma hi0_exact : TimeValue.hi0 (F := R) = 10.
Proof. reflexivity. Qed.

(** The bisection loop returns, and what it returns lies in the bracket. *)
Lemma bisect_in_bracket (cashflows : list R) (tol : R) (n : nat) :
  forall lo hi,
    -1 < lo -> lo <= hi ->
    exists r,
      TimeValue.bisect cashflows tol n lo hi = Ok r /\ lo <= r <= hi.
Proof.
  induction n as [| n IH]; intros lo hi Hlo Hle.
  - cbn. rewrite div_2. eexists. split; [reflexivity | lra].
  - cbn [TimeValue.bisect].
    change (div (add lo hi) (of_int 2)) with (Rdiv_py (lo + hi) 2).
    rewrite div_2. cbn [bind].
    rewrite npv_exact by lra. cbn [bind].
    destruct (ltb (fabs (npv_sum ((lo + hi) / 2) 0 cashflows)) tol).
    + eexists. split; [reflexivity | lra].
    + rewrite npv_exact by lra. cbn [bind].
      destruct (ltb _ _).
      * destruct (IH lo ((lo + hi) / 2)) as [r [Hr Hin]]; [lra | lra |].
        exists r. split; [exact Hr | lra].
      * destruct (IH ((lo + hi) / 2) hi) as [r [Hr Hin]]; [lra | lra |].
        exists r. split; [exact Hr | lra].
Qed.

Lemma irr_bisect_exact (cashflows : list R) (tol : R) (max_iter : Z) :
  TimeValue.irr_bisect cashflows tol max_iter =
    if Rltb 0 (npv_sum (- (99 / 100)) 0 cashflows * npv_sum 10 0 cashflows)
    then Ok None
    else bind (TimeValue.bisect cashflows tol (Z.to_nat max_iter)
                 (- (99 / 100)) 10)
              (fun r => Ok (Some r)).
Proof.
  unfold TimeValue.irr_bisect. rewrite lo0_exact, hi0_exact.
  rewrite !npv_exact by lra. reflexivity.
Qed.

(** In exact arithmetic [irr_bisect] never raises, answers [None] exactly
    when [npv(-0.99) * npv(10.0) > 0], and so answers [None] for a
    non-empty list of positive cash flows. *)
Lemma irr_bisect_exact_not_found (cashflows : list R) (tol : R) (max_iter : Z) :
  returns (TimeValue.irr_bisect cashflows tol max_iter) /\
  (TimeValue.irr_bisect cashflows tol max_iter = Ok None <->
   npv_sum (- (99 / 100)) 0 cashflows * npv_sum 10 0 cashflows > 0) /\
  (cashflows <> [] -> Forall (fun cf => 0 < cf) cashflows ->
   TimeValue.irr_bisect cashflows tol max_iter = Ok None).
Proof.
  rewrite irr_bisect_exact.
  set (prod := npv_sum (- (99 / 100)) 0 cashflows * npv_sum 10 0 cashflows).
  destruct (bisect_in_bracket cashflows tol (Z.to_nat max_iter)
              (- (99 / 100)) 10) as [r [Hr _]]; [lra | lra |].
  rewrite Hr. cbn [bind].
  assert (Hiff : (if Rltb 0 prod then Ok None else Ok (Some r)) = Ok None
                 <-> prod > 0).
  { destruct (Rltb_spec 0 prod) as [Hp | Hp]; split; intros Hx;
      try reflexivity; try lra; discriminate. }
  split; [| split].
  - destruct (Rltb 0 prod); eexists; reflexivity.
  - exact Hiff.
  - intros Hne Hall. apply Hiff. unfold prod.
    apply Rmult_lt_0_compat; apply npv_sum_positive; try assumption; lra.
Qed.

(** C10: for [tol > 0] and [max_iter >= 0], a rate that [irr_bisect] returns
    lies in [[-0.99, 10.0]]. *)
Theorem irr_bisect_in_domain (cashflows : list R) (tol : R) (max_iter : Z)
  (r : R) :
  0 < tol -> (0 <= max_iter)%Z ->
  TimeValue.irr_bisect cashflows tol max_iter = Ok (Some r) ->
  - (99 / 100) <= r <= 10.
Proof.
  intros _ _. rewrite irr_bisect_exact.
  destruct (Rltb 0 _); [discriminate |].
  destruct (bisect_in_bracket cashflows tol (Z.to_nat max_iter)
              (- (99 / 100)) 10) as [r' [Hr' Hin]]; [lra | lra |].
  rewrite Hr'. cbn [bind]. intros E. injection E as <-. exact Hin.
Qed.

Lemma irr_bisect_in_domain_witness :
  0 < 1 /\ (0 <= 0)%Z /\
  TimeValue.irr_bisect (F := R) [-1000; 1100] 1 0
    = Ok (Some ((- (99 / 100) + 10) / 2)) /\
  - (99 / 100) <= (- (99 / 100) + 10) / 2 <= 10.
Proof.
  assert (Htol : 0 < 1) by lra.
  assert (Hit : (0 <= 0)%Z) by lia.
  assert (E : TimeValue.irr_bisect (F := R) [-1000; 1100] 1 0
              = Ok (Some ((- (99 / 100) + 10) / 2))).
  { rewrite irr_bisect_exact. cbn [npv_sum].
    rewrite Rltb_false.
    - cbn. rewrite div_2. reflexivity.
    - assert (A : -1000 / (1 + - (99 / 100)) ^ 0
                  + (1100 / (1 + - (99 / 100)) ^ 1 + 0) = 109000)
        by (simpl; field).
      assert (B : -1000 / (1 + 10) ^ 0 + (1100 / (1 + 10) ^ 1 + 0) = -900)
        by (simpl; field).
      rewrite A, B. lra. }
  repeat split; try assumption;
    apply (irr_bisect_in_domain [-1000; 1100] 1 0 _ Htol Hit E).
Defined.

End TimeValueExact.

(** ** compound_interest.py in exact arithmetic *)

Module CompoundExact.

Import Exact ExactMath ExactFacts.
Local Open Scope R_scope.

Lemma powf_zero_negative (y : R) :
  y < 0 -> Rpowf 0 y = Raise ZeroDivisionError.
Proof.
  intros Hy. unfold Rpowf.
  rewrite (Reqb_false y 0) by lra. rewrite (Reqb_true 0 0) by reflexivity.
  rewrite Rltb_true by exact Hy. reflexivity.
Qed.

Lemma powf_returns (x y : R) : ~ (x = 0 /\ y < 0) -> returns (Rpowf x y).
Proof.
  intros Hxy. unfold Rpowf, returns.
  destruct (Reqb_spec y 0); [eexists; reflexivity |].
  destruct (Reqb_spec x 0).
  - destruct (Rltb_spec y 0); [tauto | eexists; reflexivity].
  - destruct (Rltb 0 x); [eexists; reflexivity |].
    destruct (is_integral y); eexists; reflexivity.
Qed.

Lemma calculate_invalid (principal rate : R) (n : Z) (years : R) :
  principal <= 0 \/ (n < 1)%Z ->
  CompoundInterest.calculate principal rate n years = Raise ValueError.
Proof.
  intros Hbad. unfold CompoundInterest.calculate. cbn.
  destruct (Rleb_spec principal 0) as [HP | HP]; [reflexivity |].
  destruct Hbad as [Hbad | Hbad]; [contradiction |].
  replace (n <? 1)%Z with true by (symmetry; apply Z.ltb_lt; exact Hbad).
  reflexivity.
Qed.

Lemma calculate_valid (principal rate : R) (n : Z) (years : R) :
  0 < principal -> (1 <= n)%Z ->
  CompoundInterest.calculate principal rate n years =
    bind (Rpowf (1 + rate / IZR n) (IZR n * years))
         (fun g =>
            Ok {| cr_principal := principal; cr_rate := rate; cr_n := n;
                  cr_years := years;
                  amount := vmul principal g;
                  interest_earned := vsub (vmul principal g) principal;
                  effective_annual_rate :=
                    (1 + rate / IZR n) ^ Z.to_nat n - 1 |}).
Proof.
  intros HP Hn. unfold CompoundInterest.calculate. cbn.
  rewrite (Rleb_false _ _ HP).
  replace (n <? 1)%Z with false by (symmetry; apply Z.ltb_ge; exact Hn).
  assert (HnR : IZR n <> 0) by (apply not_0_IZR; lia).
  rewrite div_ok by exact HnR. cbn.
  destruct (Rpowf (1 + rate / IZR n) (IZR n * years)) as [g | e];
    [| reflexivity].
  cbn. rewrite powi_nonneg by lia. reflexivity.
Qed.

(** On valid arguments [calculate] raises only for a zero base under a
    negative exponent, that is for [rate = -n] and [years < 0]. *)
Lemma calculate_raises (principal rate : R) (n : Z) (years : R) :
  0 < principal -> (1 <= n)%Z ->
  (rate = - IZR n /\ years < 0 ->
   CompoundInterest.calculate principal rate n years
     = Raise ZeroDivisionError) /\
  (~ (rate = - IZR n /\ years < 0) ->
   returns (CompoundInterest.calculate principal rate n years)).
Proof.
  intros HP Hn. rewrite (calculate_valid _ _ _ _ HP Hn).
  assert (HnR : 0 < IZR n) by (apply IZR_lt; lia).
  split.
  - intros [Er Hy].
    replace (1 + rate / IZR n) with 0 by (subst rate; field; lra).
    rewrite powf_zero_negative by nra. reflexivity.
  - intros Hno.
    destruct (powf_returns (1 + rate / IZR n) (IZR n * years)) as [g Hg].
    + intros [Hb He]. apply Hno. split.
      * assert (rate / IZR n = -1) by lra.
        replace rate with (rate / IZR n * IZR n) by (field; lra). nra.
      * nra.
    + rewrite Hg. cbn [bind]. eexists. reflexivity.
Qed.

Lemma log_positive (x : R) : 0 < x -> Rlog x = Ok (ln x).
Proof. intros Hx. unfold Rlog. rewrite Rltb_true by exact Hx. reflexivity. Qed.

(** C9, as amended: in exact arithmetic, [doubling_time] returns
    [+infinity] for [rate <= 0] and [ln 2 / (n * ln (1 + rate / n))] for
    [rate > 0], for every [n >= 1].  (In binary64 a positive rate too small
    to change [1 + rate / n] makes the divisor [0.0]; see
    [doubling_time_closed_form_counterexample].) *)
Theorem doubling_time_closed_form (rate : R) (n : Z) :
  (1 <= n)%Z ->
  (rate <= 0 -> CompoundInterest.doubling_time rate n = Ok Infinity) /\
  (0 < rate ->
   CompoundInterest.doubling_time rate n
     = Ok (Finite (ln 2 / (IZR n * ln (1 + rate / IZR n))))).
Proof.
  intros Hn. unfold CompoundInterest.doubling_time. cbn.
  assert (HnR : 0 < IZR n) by (apply IZR_lt; lia).
  split; intros Hr.
  - rewrite Rleb_true by exact Hr. reflexivity.
  - rewrite Rleb_false by exact Hr.
    rewrite log_positive by lra. cbn.
    rewrite div_ok by lra. cbn.
    assert (Hq : 0 < rate / IZR n) by (apply Rdiv_lt_0_compat; assumption).
    rewrite log_positive by lra. cbn.
    assert (Hl : 0 < ln (1 + rate / IZR n)).
    { rewrite <- ln_1. apply ln_increasing; lra. }
    rewrite div_ok by nra. reflexivity.
Qed.

Lemma doubling_time_closed_form_witness :
  (1 <= 4)%Z /\
  CompoundInterest.doubling_time (F := R) 0 4 = Ok Infinity /\
  CompoundInterest.doubling_time (F := R) 1 4
    = Ok (Finite (ln 2 / (4 * ln (1 + 1 / 4)))).
Proof.
  assert (Hn : (1 <= 4)%Z) by lia.
  split; [exact Hn |]. split.
  - apply (doubling_time_closed_form 0 4 Hn). lra.
  - apply (doubling_time_closed_form 1 4 Hn). lra.
Defined.

End CompoundExact.

(** ** percentage.py in exact arithmetic *)

Module PercentageExact.

Import Exact ExactFacts.
Local Open Scope R_scope.

Lemma of_raises (part total : R) :
  (total = 0 -> Percentage.of_ part total = Raise ValueError) /\
  (total <> 0 -> returns (Percentage.of_ part total)).
Proof.
  unfold Percentage.of_. cbn. split; intros Ht.
  - rewrite Reqb_true by exact Ht. reflexivity.
  - rewrite Reqb_false by exact Ht. rewrite !div_ok by exact Ht. cbn.
    eexists. reflexivity.
Qed.

Lemma find_total_raises (part percent : R) :
  (percent = 0 -> Percentage.find_total part percent = Raise ValueError) /\
  (percent <> 0 -> returns (Percentage.find_total part percent)).
Proof.
  unfold Percentage.find_total. cbn. split; intros Ht.
  - rewrite Reqb_true by exact Ht. reflexivity.
  - rewrite Reqb_false by exact Ht. rewrite div_ok by exact Ht.
    eexists. reflexivity.
Qed.

Lemma change_raises (old new : R) :
  (old = 0 -> Percentage.change old new = Raise ValueError) /\
  (old <> 0 -> returns (Percentage.change old new)).
Proof.
  unfold Percentage.change. cbn. split; intros Ht.
  - rewrite Reqb_true by exact Ht. reflexivity.
  - rewrite Reqb_false by exact Ht.
    rewrite div_ok by (apply Rabs_no_R0; exact Ht). cbn.
    eexists. reflexivity.
Qed.

Lemma margin_raises (revenue cost : R) :
  (revenue = 0 -> Percentage.margin revenue cost = Raise ValueError) /\
  (revenue <> 0 -> returns (Percentage.margin revenue cost)).
Proof.
  unfold Percentage.margin. cbn. split; intros Ht.
  - rewrite Reqb_true by exact Ht. reflexivity.
  - rewrite Reqb_false by exact Ht. rewrite div_ok by exact Ht. cbn.
    eexists. reflexivity.
Qed.

Lemma markup_raises (cost selling_price : R) :
  (cost = 0 -> Percentage.markup cost selling_price = Raise ValueError) /\
  (cost <> 0 -> returns (Percentage.markup cost selling_price)).
Proof.
  unfold Percentage.markup. cbn. split; intros Ht.
  - rewrite Reqb_true by exact Ht. reflexivity.
  - rewrite Reqb_false by exact Ht. rewrite div_ok by exact Ht. cbn.
    eexists. reflexivity.
Qed.

End PercentageExact.

(** ** Errors *)

Module Errors.

Import Exact ExactMath ExactFacts ExactSpec.
Local Open Scope R_scope.

Lemma monthly_payment_raises (principal annual_rate : R) (months : Z) :
  0 < principal -> (1 <= months)%Z ->
  let rm := annual_rate / 12 in
  let n := Z.to_nat months in
  (rm <> 0 /\ (1 + rm) ^ n = 1 ->
   LoanAmortization.monthly_payment principal annual_rate months
     = Raise ZeroDivisionError) /\
  (~ (rm <> 0 /\ (1 + rm) ^ n = 1) ->
   returns (LoanAmortization.monthly_payment principal annual_rate months)).
Proof.
  intros HP HN rm n.
  rewrite (LoanExact.monthly_payment_valid _ _ _ HP HN).
  unfold monthly_rate. cbv zeta. fold rm. fold n. split.
  - intros [E D]. rewrite (Reqb_false _ _ E). rewrite D.
    replace (1 - 1) with 0 by ring. apply div_zero.
  - intros Hno. destruct (Reqb_spec rm 0) as [E | E].
    + eexists. reflexivity.
    + rewrite div_ok; [eexists; reflexivity |].
      intros D. apply Hno. split; [exact E | lra].
Qed.

Lemma schedule_raises_as_monthly_payment (principal annual_rate : R)
  (months : Z) :
  0 < principal -> (1 <= months)%Z ->
  let rm := annual_rate / 12 in
  let n := Z.to_nat months in
  (rm <> 0 /\ (1 + rm) ^ n = 1 ->
   LoanAmortization.schedule principal annual_rate months
     = Raise ZeroDivisionError) /\
  (~ (rm <> 0 /\ (1 + rm) ^ n = 1) ->
   returns (LoanAmortization.schedule principal annual_rate months)).
Proof.
  intros HP HN rm n.
  destruct (monthly_payment_raises principal annual_rate months HP HN)
    as [Hz Hok].
  fold rm in Hz, Hok. fold n in Hz, Hok. split.
  - intros Hd. apply LoanExact.schedule_raises. apply Hz. exact Hd.
  - intros Hno. destruct (Hok Hno) as [M HM].
    destruct (LoanExact.schedule_rows _ _ _ _ HP HM) as [res [Hres _]].
    exists res. exact Hres.
Qed.

(** C6, as amended: in exact arithmetic, every core operation raises
    ValueError, the one kind InvalidArgument, when its stated precondition
    is violated.  On arguments that satisfy the precondition the operations
    of [Percentage] return; [calculate] returns unless [rate = -n] and
    [years < 0], where the zero base under a negative exponent raises
    ZeroDivisionError; [monthly_payment] and [schedule] return unless
    [annual_rate / 12] is not zero and [(1 + annual_rate / 12)^months = 1],
    where the zero denominator raises ZeroDivisionError.  (In binary64
    further arguments that satisfy the preconditions raise, by overflow or
    by rounding; see [monthly_payment_out_of_range].) *)
Theorem invalid_argument_taxonomy :
  (forall principal rate n years,
     (principal <= 0 \/ (n < 1)%Z ->
      CompoundInterest.calculate principal rate n years = Raise ValueError) /\
     (0 < principal -> (1 <= n)%Z ->
      (rate = - IZR n /\ years < 0 ->
       CompoundInterest.calculate principal rate n years
         = Raise ZeroDivisionError) /\
      (~ (rate = - IZR n /\ years < 0) ->
       returns (CompoundInterest.calculate principal rate n years)))) /\
  (forall principal annual_rate months,
     let rm := annual_rate / 12 in
     let n := Z.to_nat months in
     (principal <= 0 \/ (months < 1)%Z ->
      LoanAmortization.monthly_payment principal annual_rate months
        = Raise ValueError /\
      LoanAmortization.schedule principal annual_rate months
        = Raise ValueError) /\
     (0 < principal -> (1 <= months)%Z ->
      (rm <> 0 /\ (1 + rm) ^ n = 1 ->
       LoanAmortization.monthly_payment principal annual_rate months
         = Raise ZeroDivisionError /\
       LoanAmortization.schedule principal annual_rate months
         = Raise ZeroDivisionError) /\
      (~ (rm <> 0 /\ (1 + rm) ^ n = 1) ->
       returns (LoanAmortization.monthly_payment principal annual_rate months)
       /\ returns (LoanAmortization.schedule principal annual_rate months))))
  /\
  (forall part total : R,
     (total = 0 -> Percentage.of_ part total = Raise ValueError) /\
     (total <> 0 -> returns (Percentage.of_ part total))) /\
  (forall part percent : R,
     (percent = 0 -> Percentage.find_total part percent = Raise ValueError) /\
     (percent <> 0 -> returns (Percentage.find_total part percent))) /\
  (forall old new : R,
     (old = 0 -> Percentage.change old new = Raise ValueError) /\
     (old <> 0 -> returns (Percentage.change old new))) /\
  (forall revenue cost : R,
     (revenue = 0 -> Percentage.margin revenue cost = Raise ValueError) /\
     (revenue <> 0 -> returns (Percentage.margin revenue cost))) /\
  (forall cost selling_price : R,
     (cost = 0 -> Percentage.markup cost selling_price = Raise ValueError) /\
     (cost <> 0 -> returns (Percentage.markup cost selling_price))).
Proof.
  split; [| split; [| repeat split ]].
  - intros principal rate n years. split.
    + apply CompoundExact.calculate_invalid.
    + apply CompoundExact.calculate_raises.
  - intros principal annual_rate months rm n. split.
    + intros Hbad. split.
      * apply LoanExact.monthly_payment_invalid. exact Hbad.
      * apply LoanExact.schedule_invalid. exact Hbad.
    + intros HP HN.
      destruct (monthly_payment_raises principal annual_rate months HP HN)
        as [Hz Hok].
      destruct (schedule_raises_as_monthly_payment principal annual_rate
                  months HP HN) as [Hz' Hok'].
      split; intros Hc; split; auto.
  - apply PercentageExact.of_raises.
  - apply PercentageExact.of_raises.
  - apply PercentageExact.find_total_raises.
  - apply PercentageExact.find_total_raises.
  - apply PercentageExact.change_raises.
  - apply PercentageExact.change_raises.
  - apply PercentageExact.margin_raises.
  - apply PercentageExact.margin_raises.
  - apply PercentageExact.markup_raises.
  - apply PercentageExact.markup_raises.
Qed.

(** C6, as stated, fails: these arguments satisfy the stated preconditions
    and the calls raise ZeroDivisionError.  [calculate(1000, -1, 1, -1)]
    raises [0.0] to the power [-1.0]; [monthly_payment(1000, -24, 2)] and
    [schedule(1000, -24, 2)] divide by [(1 - 2)^2 - 1]. *)
Lemma invalid_argument_taxonomy_counterexample :
  0 < 1000 /\ (1 <= 1)%Z /\ (1 <= 2)%Z /\
  CompoundInterest.calculate (F := R) 1000 (-1) 1 (-1)
    = Raise ZeroDivisionError /\
  LoanAmortization.monthly_payment (F := R) 1000 (-24) 2
    = Raise ZeroDivisionError /\
  LoanAmortization.schedule (F := R) 1000 (-24) 2
    = Raise ZeroDivisionError.
Proof.
  assert (HP : 0 < 1000) by lra.
  repeat split; try lra; try lia.
  - apply CompoundExact.calculate_raises; [lra | lia |]. split; lra.
  - exact LoanExact.monthly_payment_zero_denominator.
  - apply LoanExact.schedule_raises.
    exact LoanExact.monthly_payment_zero_denominator.
Qed.

End Errors.

(** ** Runs in binary64 *)

Module Binary64Runs.

Import Binary64 Binary64Math.


(** When the rounded payment overshoots, the guard fires and the balance is
    exactly zero: [schedule(1000, 0.05, 1)]. *)
Example schedule_overshoot_clamped :
  exists res row,
    LoanAmortization.schedule (F := float) (of_int 1000) (decimal 5 2) 1
      = Ok res /\
    py_last (schedule res) = Some row /\
    principal_part row = 1000%float /\
    remaining_balance row = 0%float.
Proof.
  eexists. eexists. split.
  - cbv. reflexivity.
  - repeat split; reflexivity.
Qed.

(** C4: [irr_bisect([1.0] * 200)] in binary64, with the default tolerance
    and iteration count.  The first call [npv(-0.99)] divides by
    [(1 + -0.99) ** t], about [1e-2t], which is below the smallest double
    and so [0.0] for the later flows (here from [t = 162] on). *)
Theorem irr_bisect_long_cashflows_raise :
  TimeValue.irr_bisect (F := float) (repeat (of_int 1) 200)
    TimeValue.default_tol TimeValue.default_max_iter
  = Raise ZeroDivisionError.
Proof. vm_compute. reflexivity. Qed.

Lemma discount_underflow :
  powi (F := float) (add (of_int 1) TimeValue.lo0) 162 = Ok 0%float /\
  div (F := float) (of_int 1) 0%float = Raise ZeroDivisionError.
Proof. split; vm_compute; reflexivity. Qed.

(** The checks of the validation mode, run in binary64. *)

Example percentage_of_25_200 :
  exists res,
    Percentage.of_ (F := float) (of_int 25) (of_int 200) = Ok res /\
    percentage res = 12.5%float.
Proof. eexists. split; [cbv; reflexivity | reflexivity]. Qed.

Example percentage_value_15_200 :
  Percentage.value (F := float) (of_int 15) (of_int 200) = Ok 30%float.
Proof. vm_compute. reflexivity. Qed.

Example percentage_find_total_30_15 :
  Percentage.find_total (F := float) (of_int 30) (of_int 15) = Ok 200%float.
Proof. vm_compute. reflexivity. Qed.

Example percentage_change_80_100 :
  Percentage.change (F := float) (of_int 80) (of_int 100) = Ok 25%float.
Proof. vm_compute. reflexivity. Qed.

Example percentage_margin_1000_600 :
  Percentage.margin (F := float) (of_int 1000) (of_int 600) = Ok 40%float.
Proof. vm_compute. reflexivity. Qed.

Example monthly_payment_interest_free :
  LoanAmortization.monthly_payment (F := float) (of_int 1200) (of_int 0) 12
    = Ok 100%float.
Proof. vm_compute. reflexivity. Qed.

(** [irr_bisect([-1000, 1100])] is within [1e-4] of [0.10]; the powers
    taken are [x ** 0] and [x ** 1] only. *)
Example irr_bisect_two_flows :
  exists r,
    TimeValue.irr_bisect (F := float) [of_int (-1000); of_int 1100]
      TimeValue.default_tol TimeValue.default_max_iter = Ok (Some r) /\
    ltb (fabs (sub r (decimal 10 2))) (decimal 1 4) = true.
Proof. eexists. split; [vm_compute; reflexivity | reflexivity]. Qed.

(** *** Where rounding, overflow and underflow show *)

(** C3, as stated, fails: [schedule(5999.92, 0.19, 1)] computed in
    binary64.  The payment is 6094.9187333333221.  The interest part
    94.998733333333348 and the principal part 5999.9199999999892 are
    rounded one by one, and their sum is 6094.918733333323, which is
    [2^-40], one unit in the last place, above the payment.  The principal
    part is below the balance, so the guard has not fired and the row is
    not a corrected one. *)
Lemma schedule_row_invariants_counterexample :
  ltb (of_int 0) (decimal 599992 2 : float) = true /\
  leb (of_int 0) (decimal 19 2 : float) = true /\
  (1 <= 1)%Z /\
  exists res row,
    LoanAmortization.schedule (F := float) (decimal 599992 2) (decimal 19 2) 1
      = Ok res /\
    schedule res = [row] /\
    ltb (decimal 599992 2) (principal_part row) = false /\
    sub (add (principal_part row) (interest_part row)) (payment row)
      = 0x1p-40%float /\
    eqb (payment row) (add (principal_part row) (interest_part row)) = false.
Proof.
  split; [reflexivity |]. split; [reflexivity |]. split; [lia |].
  eexists. eexists. split.
  - cbv. reflexivity.
  - repeat split; reflexivity.
Qed.

(** C7, as stated, fails: [affordable_principal(100, 1e-17, 12)] computed
    in binary64.  The monthly rate is about [8.3e-19], not zero, and
    [1 + rm] rounds to [1.0]; the factor
    [((1 + rm)^12 - 1) / (rm * (1 + rm)^12)] is then [0.0] and so is the
    principal returned, on which [monthly_payment] raises ValueError. *)
Lemma affordable_principal_inverse_counterexample :
  ltb (of_int 0) (of_int 100 : float) = true /\
  leb (of_int 0) (decimal 1 17 : float) = true /\
  (1 <= 12)%Z /\
  LoanAmortization.affordable_principal (F := float)
    (of_int 100) (decimal 1 17) 12 = Ok 0%float /\
  LoanAmortization.monthly_payment (F := float) 0%float (decimal 1 17) 12
    = Raise ValueError.
Proof.
  split; [reflexivity |]. split; [reflexivity |]. split; [lia |].
  split; vm_compute; reflexivity.
Qed.

(** C8, as stated, fails in binary64.  [future_value(1000.0, 0.5, 2000)]
    raises OverflowError: [1.5 ** 2000] is beyond the largest double.  And
    [future_value(1000.0, -0.5, 1100)] is [0.0], since [0.5 ** 1100]
    underflows; [present_value] of it divides by the same [0.0] and raises
    ZeroDivisionError. *)
Lemma present_value_future_value_counterexample :
  ltb (neg (of_int 1)) (decimal 5 1 : float) = true /\
  TimeValue.future_value (F := float)
    (of_int 1000) (decimal 5 1) (of_int 2000) = Raise OverflowError /\
  ltb (neg (of_int 1)) (neg (decimal 5 1) : float) = true /\
  powf (F := float) (add (of_int 1) (neg (decimal 5 1))) (of_int 1100)
    = Ok (VFloat 0%float) /\
  TimeValue.future_value (F := float)
    (of_int 1000) (neg (decimal 5 1)) (of_int 1100) = Ok (VFloat 0%float) /\
  TimeValue.present_value (F := float)
    0%float (neg (decimal 5 1)) (of_int 1100) = Raise ZeroDivisionError.
Proof. repeat split; vm_compute; reflexivity. Qed.

(** C9, as stated, fails: [doubling_time(1e-17, 1)] computed in binary64.
    [1 + 1e-17] rounds to [1.0], whose logarithm is [0.0], and the division
    by [1 * 0.0] raises ZeroDivisionError. *)
Lemma doubling_time_closed_form_counterexample :
  ltb (of_int 0) (decimal 1 17 : float) = true /\
  (1 <= 1)%Z /\
  add (of_int 1) (decimal 1 17) = 1%float /\
  log (F := float) 1%float = Ok 0%float /\
  CompoundInterest.doubling_time (F := float) (decimal 1 17) 1
    = Raise ZeroDivisionError.
Proof.
  split; [reflexivity |]. split; [lia |].
  repeat split; vm_compute; reflexivity.
Qed.

(** [analyze] beyond the range of binary64: [analyze(100, 0.5, 2000)]
    raises OverflowError on [1.5 ** 2000], and [analyze(100, -0.5, 1100)]
    divides by the growth factor [0.5 ** 1100], which has underflowed to
    [0.0]. *)
Example analyze_out_of_range :
  TimeValue.analyze (F := float) (of_int 100) (decimal 5 1) (of_int 2000)
    = Raise OverflowError /\
  TimeValue.analyze (F := float) (of_int 100) (neg (decimal 5 1)) (of_int 1100)
    = Raise ZeroDivisionError.
Proof. split; vm_compute; reflexivity. Qed.

(** [monthly_payment] and [schedule] on arguments that satisfy the
    preconditions: [monthly_payment(1000, 12, 2000)] has the monthly rate
    [1.0] and raises OverflowError on [2.0 ** 2000]; at the annual rate
    [1e-17] the monthly rate is not zero, [(1 + rm)^12] rounds to [1.0]
    and the denominator is [0.0]. *)
Example monthly_payment_out_of_range :
  LoanAmortization.monthly_payment (F := float) (of_int 1000) (of_int 12) 2000
    = Raise OverflowError /\
  LoanAmortization.monthly_payment (F := float) (of_int 1000) (decimal 1 17) 12
    = Raise ZeroDivisionError /\
  LoanAmortization.schedule (F := float) (of_int 1000) (decimal 1 17) 12
    = Raise ZeroDivisionError.
Proof. repeat split; vm_compute; reflexivity. Qed.

End Binary64Runs.

(** * Further properties *)

(** ** The rows of [schedule], in any arithmetic *)

Module ScheduleShape.

Section AnyArithmetic.

Context {F : Type} `{PyFloat F}.

(** What [schedule] has computed when it returns. *)
Lemma schedule_returns_inv (principal annual_rate : F) (months : Z)
  (res : LoanResult F) :
  LoanAmortization.schedule principal annual_rate months = Ok res ->
  exists rm payment0,
    div annual_rate (of_int 12) = Ok rm /\
    LoanAmortization.monthly_payment principal annual_rate months
      = Ok payment0 /\
    let run :=
      LoanAmortization.schedule_loop rm (Z.to_nat months) 1%Z
        {| LoanAmortization.st_payment := payment0;
           LoanAmortization.st_balance := principal;
           LoanAmortization.st_cum_interest := of_int 0;
           LoanAmortization.st_cum_principal := of_int 0 |} in
    schedule res = fst run /\
    total_paid res = LoanAmortization.py_sum (map payment (fst run)) /\
    total_interest res = LoanAmortization.st_cum_interest (snd run) /\
    monthly_payment res
      = match fst run with r :: _ => payment r | [] => of_int 0 end.
Proof.
  unfold LoanAmortization.schedule. intros Hres.
  destruct (div annual_rate (of_int 12)) as [rm | e]; [| discriminate].
  cbn [bind] in Hres.
  destruct (LoanAmortization.monthly_payment principal annual_rate months)
    as [payment0 | e]; [| discriminate].
  cbn [bind] in Hres.
  exists rm, payment0. split; [reflexivity |]. split; [reflexivity |].
  cbv zeta.
  destruct (LoanAmortization.schedule_loop rm (Z.to_nat months) 1%Z _)
    as [rows st].
  destruct (ltb (of_int 0) principal).
  - destruct (div (LoanAmortization.st_cum_interest st) principal)
      as [ratio | e]; [| discriminate].
    cbn [bind] in Hres. injection Hres as <-. cbn. repeat split.
  - cbn [bind] in Hres. injection Hres as <-. cbn. repeat split.
Qed.

Lemma schedule_loop_months (rm : F) (n : nat) :
  forall k st i row,
    nth_error (fst (LoanAmortization.schedule_loop rm n k st)) i = Some row ->
    month row = (k + Z.of_nat i)%Z.
Proof.
  induction n as [| n IH]; intros k st i row Hnth.
  - destruct i; discriminate.
  - rewrite schedule_loop_S in Hnth. cbn [fst] in Hnth.
    destruct i as [| i].
    + injection Hnth as <-. cbn. lia.
    + cbn [nth_error] in Hnth. rewrite (IH _ _ _ _ Hnth). lia.
Qed.

(** A schedule that [schedule] returns has one row per month, numbered
    from 1 in order. *)
Theorem schedule_months_numbered (principal annual_rate : F) (months : Z)
  (res : LoanResult F) :
  LoanAmortization.schedule principal annual_rate months = Ok res ->
  length (schedule res) = Z.to_nat months /\
  forall i row,
    nth_error (schedule res) i = Some row -> month row = (Z.of_nat i + 1)%Z.
Proof.
  intros Hres.
  destruct (schedule_returns_inv _ _ _ _ Hres)
    as (rm & payment0 & _ & _ & Hrows & _).
  rewrite Hrows. split.
  - apply schedule_loop_length.
  - intros i row Hnth. rewrite (schedule_loop_months _ _ _ _ _ _ Hnth). lia.
Qed.

End AnyArithmetic.

Import Binary64.

Lemma schedule_months_numbered_witness :
  exists res,
    LoanAmortization.schedule (F := float) (of_int 1200) (of_int 0) 3 = Ok res /\
    length (schedule res) = 3%nat /\
    forall i row,
      nth_error (schedule res) i = Some row -> month row = (Z.of_nat i + 1)%Z.
Proof.
  assert (E : exists res,
             LoanAmortization.schedule (F := float) (of_int 1200) (of_int 0) 3
               = Ok res)
    by (vm_compute; eexists; reflexivity).
  destruct E as [res E]. exists res. split; [exact E |].
  exact (schedule_months_numbered _ _ _ _ E).
Defined.

End ScheduleShape.

(** ** Sweeps *)

Module Sweeps.

Lemma py_map_pointwise {A B : Type} (f : A -> result B) (xs : list A) :
  forall ys,
    py_map f xs = Ok ys ->
    length ys = length xs /\
    forall i x,
      nth_error xs i = Some x ->
      exists y, nth_error ys i = Some y /\ f x = Ok y.
Proof.
  induction xs as [| x rest IH]; intros ys Hmap.
  - injection Hmap as <-. split; [reflexivity |].
    intros i x Hnth. destruct i; discriminate.
  - cbn [py_map] in Hmap.
    destruct (f x) as [y | e] eqn:Hfx; [| discriminate].
    destruct (py_map f rest) as [ys' | e]; [| discriminate].
    injection Hmap as <-.
    destruct (IH ys' eq_refl) as [Hlen Hpt]. split.
    + cbn. f_equal. exact Hlen.
    + intros i x' Hnth. destruct i as [| i].
      * injection Hnth as <-. exists y. split; [reflexivity | exact Hfx].
      * cbn [nth_error] in Hnth |- *. apply Hpt. exact Hnth.
Qed.

(** The comprehension returns exactly when [f] returns on every element. *)
Lemma py_map_returns {A B : Type} (f : A -> result B) (xs : list A) :
  returns (py_map f xs) <-> Forall (fun x => returns (f x)) xs.
Proof.
  induction xs as [| x rest IH].
  - split; [constructor | intros _; eexists; reflexivity].
  - cbn [py_map]. split.
    + intros [ys Hys]. destruct (f x) as [y | e] eqn:Hfx; [| discriminate].
      constructor; [eexists; exact Hfx |]. apply IH.
      destruct (py_map f rest); [eexists; reflexivity | discriminate].
    + intros Hall. inversion Hall as [| x' rest' [y Hy] Hrest]; subst.
      rewrite Hy. destruct (proj2 IH Hrest) as [ys Hys]. rewrite Hys.
      eexists. reflexivity.
Qed.

End Sweeps.

(** ** Compound growth *)

Module CompoundGrowth.

Import Exact ExactMath ExactFacts ExactSpec.
Local Open Scope R_scope.

Lemma IZR_to_nat (n : Z) : (0 <= n)%Z -> IZR n = INR (Z.to_nat n).
Proof. intros Hn. rewrite INR_IZR_INZ. rewrite Z2Nat.id by exact Hn. reflexivity. Qed.

Lemma positive_base (rate : R) (n : Z) :
  (1 <= n)%Z -> - IZR n < rate -> 0 < 1 + rate / IZR n.
Proof.
  intros Hn Hr. assert (HnR : 0 < IZR n) by (apply IZR_lt; lia).
  assert (-1 < rate / IZR n); [| lra].
  apply Rmult_lt_reg_r with (IZR n); [exact HnR |].
  unfold Rdiv. rewrite Rmult_assoc, Rinv_l by lra. lra.
Qed.

(** [calculate] on a positive base [1 + rate / n]. *)
Lemma calculate_positive_base (principal rate : R) (n : Z) (years : R) :
  0 < principal -> (1 <= n)%Z -> - IZR n < rate ->
  CompoundInterest.calculate principal rate n years =
    let base := 1 + rate / IZR n in
    let a := principal * Rpower base (IZR n * years) in
    Ok {| cr_principal := principal; cr_rate := rate; cr_n := n;
          cr_years := years;
          amount := VFloat a;
          interest_earned := VFloat (a - principal);
          effective_annual_rate := base ^ Z.to_nat n - 1 |}.
Proof.
  intros HP Hn Hr. rewrite (CompoundExact.calculate_valid _ _ _ _ HP Hn).
  rewrite TimeValueExact.powf_positive_base
    by (apply positive_base; assumption).
  reflexivity.
Qed.

(** Over one year the amount is the principal grown by the effective annual
    rate that [calculate] reports. *)
Theorem calculate_effective_rate (principal rate : R) (n : Z) :
  0 < principal -> (1 <= n)%Z -> - IZR n < rate ->
  exists res a,
    CompoundInterest.calculate principal rate n 1 = Ok res /\
    amount res = VFloat a /\
    a = principal * (1 + effective_annual_rate res).
Proof.
  intros HP Hn Hr. rewrite calculate_positive_base by assumption. cbv zeta.
  eexists. eexists. split; [reflexivity |]. split; [reflexivity |]. cbn.
  pose proof (positive_base rate n Hn Hr) as Hb.
  set (b := 1 + rate / IZR n) in *.
  rewrite Rmult_1_r. rewrite (IZR_to_nat n) by lia.
  rewrite Rpower_pow by exact Hb. ring.
Qed.

Lemma calculate_effective_rate_witness :
  0 < 1000 /\ (1 <= 12)%Z /\ - IZR 12 < 1 /\
  exists res a,
    CompoundInterest.calculate (F := R) 1000 1 12 1 = Ok res /\
    amount res = VFloat a /\
    a = 1000 * (1 + effective_annual_rate res).
Proof.
  assert (HP : 0 < 1000) by lra.
  assert (Hn : (1 <= 12)%Z) by lia.
  assert (Hr : - IZR 12 < 1) by lra.
  repeat split; try assumption.
  exact (calculate_effective_rate 1000 1 12 HP Hn Hr).
Defined.

Lemma doubling_time_positive_rate (rate : R) (n : Z) :
  (1 <= n)%Z -> 0 < rate ->
  CompoundInterest.doubling_time rate n
    = Ok (Finite (ln 2 / (IZR n * ln (1 + rate / IZR n)))) /\
  0 < ln (1 + rate / IZR n).
Proof.
  intros Hn Hr. unfold CompoundInterest.doubling_time. cbn.
  assert (HnR : 0 < IZR n) by (apply IZR_lt; lia).
  rewrite Rleb_false by exact Hr.
  rewrite CompoundExact.log_positive by lra. cbn.
  rewrite div_ok by lra. cbn.
  assert (Hq : 0 < rate / IZR n) by (apply Rdiv_lt_0_compat; assumption).
  rewrite CompoundExact.log_positive by lra. cbn.
  assert (Hl : 0 < ln (1 + rate / IZR n)).
  { rewrite <- ln_1. apply ln_increasing; lra. }
  rewrite div_ok by nra. split; [reflexivity | exact Hl].
Qed.

(** After the time [doubling_time] returns, [calculate] gives twice the
    principal: the interest earned equals the principal. *)
Theorem calculate_at_doubling_time (principal rate : R) (n : Z) :
  0 < principal -> (1 <= n)%Z -> 0 < rate ->
  exists t res,
    CompoundInterest.doubling_time rate n = Ok (Finite t) /\
    0 < t /\
    CompoundInterest.calculate principal rate n t = Ok res /\
    amount res = VFloat (2 * principal) /\
    interest_earned res = VFloat principal.
Proof.
  intros HP Hn Hr.
  destruct (doubling_time_positive_rate rate n Hn Hr) as [Hdt Hl].
  assert (HnR : 0 < IZR n) by (apply IZR_lt; lia).
  set (b := 1 + rate / IZR n) in *.
  exists (ln 2 / (IZR n * ln b)). eexists.
  split; [exact Hdt |]. split.
  { apply Rdiv_lt_0_compat; [| nra].
    rewrite <- ln_1. apply ln_increasing; lra. }
  rewrite calculate_positive_base by (try assumption; lra). cbv zeta.
  fold b. split; [reflexivity |].
  assert (E : Rpower b (IZR n * (ln 2 / (IZR n * ln b))) = 2).
  { unfold Rpower.
    replace (IZR n * (ln 2 / (IZR n * ln b)) * ln b) with (ln 2)
      by (field; lra).
    apply exp_ln. lra. }
  cbn. rewrite E. split; f_equal; ring.
Qed.

Lemma calculate_at_doubling_time_witness :
  0 < 500 /\ (1 <= 4)%Z /\ 0 < 1 /\
  exists t res,
    CompoundInterest.doubling_time (F := R) 1 4 = Ok (Finite t) /\
    0 < t /\
    CompoundInterest.calculate 500 1 4 t = Ok res /\
    amount res = VFloat (2 * 500) /\
    interest_earned res = VFloat 500.
Proof.
  assert (HP : 0 < 500) by lra.
  assert (Hn : (1 <= 4)%Z) by lia.
  assert (Hr : 0 < 1) by lra.
  repeat split; try assumption.
  exact (calculate_at_doubling_time 500 1 4 HP Hn Hr).
Defined.

Lemma Rpower_ge_1 (b y : R) : 1 <= b -> 0 <= y -> 1 <= Rpower b y.
Proof.
  intros Hb Hy. unfold Rpower. rewrite <- exp_0.
  assert (0 <= ln b).
  { rewrite <- ln_1. destruct Hb as [Hb | <-]; [| lra].
    left. apply ln_increasing; lra. }
  destruct (Rle_lt_or_eq_dec 0 (y * ln b)) as [Hlt | <-]; [nra | |].
  - left. apply exp_increasing. exact Hlt.
  - right. reflexivity.
Qed.

(** At a non-negative rate over a non-negative horizon nothing is lost:
    the amount is at least the principal, the interest earned is the
    difference and not negative, and over zero years the amount is the
    principal. *)
Theorem calculate_never_loses (principal rate : R) (n : Z) (years : R) :
  0 < principal -> (1 <= n)%Z -> 0 <= rate -> 0 <= years ->
  exists res a,
    CompoundInterest.calculate principal rate n years = Ok res /\
    amount res = VFloat a /\
    interest_earned res = VFloat (a - principal) /\
    principal <= a /\
    (years = 0 -> a = principal).
Proof.
  intros HP Hn Hr Hy.
  assert (HnR : 0 < IZR n) by (apply IZR_lt; lia).
  rewrite calculate_positive_base by (try assumption; lra). cbv zeta.
  eexists. eexists. split; [reflexivity |]. cbn.
  split; [reflexivity |]. split; [reflexivity |].
  assert (Hq : 0 <= rate / IZR n).
  { apply Rmult_le_pos; [exact Hr |]. left. apply Rinv_0_lt_compat. exact HnR. }
  split.
  - pose proof (Rpower_ge_1 (1 + rate / IZR n) (IZR n * years)
                  ltac:(lra) ltac:(nra)).
    nra.
  - intros ->. rewrite Rmult_0_r. rewrite Rpower_O by lra. ring.
Qed.

Lemma calculate_never_loses_witness :
  0 < 1000 /\ (1 <= 12)%Z /\ 0 <= 1 /\ 0 <= 10 /\
  exists res a,
    CompoundInterest.calculate (F := R) 1000 1 12 10 = Ok res /\
    amount res = VFloat a /\
    interest_earned res = VFloat (a - 1000) /\
    1000 <= a /\
    (10 = 0 -> a = 1000).
Proof.
  assert (HP : 0 < 1000) by lra.
  assert (Hn : (1 <= 12)%Z) by lia.
  assert (Hr : 0 <= 1) by lra.
  assert (Hy : 0 <= 10) by lra.
  repeat split; try assumption.
  exact (calculate_never_loses 1000 1 12 10 HP Hn Hr Hy).
Defined.

Lemma continuous_eq (principal rate years : R) :
  CompoundInterest.continuous principal rate years
    = Ok (principal * exp (rate * years)).
Proof. reflexivity. Qed.

Lemma ln_1_plus_le (x : R) : -1 < x -> ln (1 + x) <= x.
Proof.
  intros Hx. pose proof (exp_ineq1_le x) as Hexp.
  destruct (Rle_lt_or_eq_dec _ _ Hexp) as [Hlt | Heq].
  - left. rewrite <- (ln_exp x) at 2. apply ln_increasing; lra.
  - right. rewrite Heq. apply ln_exp.
Qed.

(** Continuous compounding bounds discrete compounding from above: for a
    base [1 + rate / n > 0] and [years >= 0] the amount of [calculate] is
    at most what [continuous] returns. *)
Theorem continuous_dominates (principal rate : R) (n : Z) (years : R) :
  0 < principal -> (1 <= n)%Z -> - IZR n < rate -> 0 <= years ->
  exists res a c,
    CompoundInterest.calculate principal rate n years = Ok res /\
    amount res = VFloat a /\
    CompoundInterest.continuous principal rate years = Ok c /\
    a <= c.
Proof.
  intros HP Hn Hr Hy.
  rewrite calculate_positive_base by assumption. cbv zeta.
  rewrite continuous_eq.
  eexists. eexists. eexists.
  split; [reflexivity |]. split; [reflexivity |]. split; [reflexivity |].
  assert (HnR : 0 < IZR n) by (apply IZR_lt; lia).
  pose proof (positive_base rate n Hn Hr) as Hb.
  assert (Hln : ln (1 + rate / IZR n) <= rate / IZR n)
    by (apply ln_1_plus_le; lra).
  apply Rmult_le_compat_l; [lra |].
  unfold Rpower.
  assert (Hexp : IZR n * years * ln (1 + rate / IZR n) <= rate * years).
  { replace (rate * years) with (IZR n * years * (rate / IZR n))
      by (field; lra).
    apply Rmult_le_compat_l; [nra | exact Hln]. }
  destruct (Rle_lt_or_eq_dec _ _ Hexp) as [Hlt | Heq].
  - left. apply exp_increasing. exact Hlt.
  - right. rewrite Heq. reflexivity.
Qed.

Lemma continuous_dominates_witness :
  0 < 1000 /\ (1 <= 12)%Z /\ - IZR 12 < 1 /\ 0 <= 10 /\
  exists res a c,
    CompoundInterest.calculate (F := R) 1000 1 12 10 = Ok res /\
    amount res = VFloat a /\
    CompoundInterest.continuous 1000 1 10 = Ok c /\
    a <= c.
Proof.
  assert (HP : 0 < 1000) by lra.
  assert (Hn : (1 <= 12)%Z) by lia.
  assert (Hr : - IZR 12 < 1) by lra.
  assert (Hy : 0 <= 10) by lra.
  repeat split; try assumption.
  exact (continuous_dominates 1000 1 12 10 HP Hn Hr Hy).
Defined.

(** Growing continuously for [t1] and then for [t2] years is growing for
    [t1 + t2] years. *)
Theorem continuous_composes (principal rate t1 t2 : R) :
  exists a,
    CompoundInterest.continuous principal rate t1 = Ok a /\
    CompoundInterest.continuous a rate t2
      = CompoundInterest.continuous principal rate (t1 + t2).
Proof.
  rewrite !continuous_eq. eexists. split; [reflexivity |].
  rewrite continuous_eq. f_equal.
  rewrite Rmult_plus_distr_l, exp_plus. ring.
Qed.

(** [rate_sweep] over rates above [-n] returns one result per rate, in
    order, each with its rate and the amount of the compounding formula. *)
Theorem compound_rate_sweep_pointwise (principal : R) (n : Z) (years : R)
  (rates : list R) :
  0 < principal -> (1 <= n)%Z ->
  Forall (fun r => - IZR n < r) rates ->
  exists results,
    CompoundInterest.rate_sweep principal n years rates = Ok results /\
    length results = length rates /\
    forall i r,
      nth_error rates i = Some r ->
      exists res,
        nth_error results i = Some res /\
        cr_rate res = r /\
        amount res
          = VFloat (principal * Rpower (1 + r / IZR n) (IZR n * years)).
Proof.
  intros HP Hn Hall. unfold CompoundInterest.rate_sweep.
  assert (Hret : returns
            (py_map (fun r => CompoundInterest.calculate principal r n years)
               rates)).
  { apply Sweeps.py_map_returns.
    apply Forall_impl with (P := fun r => - IZR n < r); [| exact Hall].
    intros r Hr. rewrite calculate_positive_base by assumption.
    eexists. reflexivity. }
  destruct Hret as [results Hres]. exists results. split; [exact Hres |].
  destruct (Sweeps.py_map_pointwise _ _ _ Hres) as [Hlen Hpt].
  split; [exact Hlen |].
  intros i r Hnth. destruct (Hpt i r Hnth) as [res [Hi Hcalc]].
  exists res. split; [exact Hi |].
  assert (Hr : - IZR n < r).
  { rewrite Forall_forall in Hall. apply Hall.
    apply nth_error_In with i. exact Hnth. }
  rewrite calculate_positive_base in Hcalc by assumption.
  injection Hcalc as <-. split; reflexivity.
Qed.

Lemma compound_rate_sweep_pointwise_witness :
  0 < 1000 /\ (1 <= 12)%Z /\
  exists results,
    CompoundInterest.rate_sweep (F := R) 1000 12 20 [1; 2] = Ok results /\
    length results = 2%nat.
Proof.
  assert (HP : 0 < 1000) by lra.
  assert (Hn : (1 <= 12)%Z) by lia.
  assert (Hall : Forall (fun r => - IZR 12 < r) [1; 2])
    by (repeat constructor; lra).
  destruct (compound_rate_sweep_pointwise 1000 12 20 [1; 2] HP Hn Hall)
    as [results [E [L _]]].
  repeat split; try assumption. exists results. split; assumption.
Defined.

(** [frequency_sweep] at a rate above [-1] over frequencies that are all at
    least 1 returns one result per frequency, in order; a frequency below 1
    anywhere in the list makes the whole sweep raise ValueError. *)
Theorem frequency_sweep_pointwise (principal rate years : R)
  (frequencies : list Z) :
  0 < principal -> -1 < rate ->
  (Forall (fun n => (1 <= n)%Z) frequencies ->
   exists results,
     CompoundInterest.frequency_sweep principal rate years frequencies
       = Ok results /\
     length results = length frequencies /\
     forall i n,
       nth_error frequencies i = Some n ->
       exists res,
         nth_error results i = Some res /\
         cr_n res = n /\
         amount res
           = VFloat (principal * Rpower (1 + rate / IZR n) (IZR n * years)))
  /\
  (Exists (fun n => (n < 1)%Z) frequencies ->
   CompoundInterest.frequency_sweep principal rate years frequencies
     = Raise ValueError).
Proof.
  intros HP Hr. unfold CompoundInterest.frequency_sweep. split.
  - intros Hall.
    assert (Hbase : forall n, (1 <= n)%Z -> - IZR n < rate).
    { intros n Hn. assert (1 <= IZR n) by (apply IZR_le; lia). lra. }
    assert (Hret : returns
              (py_map
                 (fun n => CompoundInterest.calculate principal rate n years)
                 frequencies)).
    { apply Sweeps.py_map_returns.
      apply Forall_impl with (P := fun n => (1 <= n)%Z); [| exact Hall].
      intros n Hn. rewrite calculate_positive_base by auto.
      eexists. reflexivity. }
    destruct Hret as [results Hres]. exists results. split; [exact Hres |].
    destruct (Sweeps.py_map_pointwise _ _ _ Hres) as [Hlen Hpt].
    split; [exact Hlen |].
    intros i n Hnth. destruct (Hpt i n Hnth) as [res [Hi Hcalc]].
    exists res. split; [exact Hi |].
    assert (Hn : (1 <= n)%Z).
    { rewrite Forall_forall in Hall. apply Hall.
      apply nth_error_In with i. exact Hnth. }
    rewrite calculate_positive_base in Hcalc by auto.
    injection Hcalc as <-. split; reflexivity.
  - intros Hex. induction frequencies as [| n rest IH].
    + inversion Hex.
    + cbn [py_map]. destruct (Z_lt_dec n 1) as [Hn | Hn].
      * rewrite CompoundExact.calculate_invalid by (right; exact Hn).
        reflexivity.
      * assert (Hbase : - IZR n < rate).
        { assert (1 <= IZR n) by (apply IZR_le; lia). lra. }
        rewrite calculate_positive_base by (try assumption; lia).
        cbv zeta. rewrite IH; [reflexivity |].
        inversion Hex; subst; [contradiction | assumption].
Qed.

Lemma frequency_sweep_pointwise_witness :
  0 < 1000 /\ -1 < 1 /\
  (exists results,
     CompoundInterest.frequency_sweep (F := R) 1000 1 20 [1; 4; 12]%Z
       = Ok results /\
     length results = 3%nat) /\
  CompoundInterest.frequency_sweep (F := R) 1000 1 20 [1; 0]%Z
    = Raise ValueError.
Proof.
  assert (HP : 0 < 1000) by lra.
  assert (Hr : -1 < 1) by lra.
  split; [exact HP |]. split; [exact Hr |]. split.
  - assert (Hall : Forall (fun n => (1 <= n)%Z) [1; 4; 12]%Z)
      by (repeat constructor; lia).
    destruct (proj1 (frequency_sweep_pointwise 1000 1 20 [1; 4; 12]%Z HP Hr)
                Hall) as [results [E [L _]]].
    exists results. split; assumption.
  - apply (proj2 (frequency_sweep_pointwise 1000 1 20 [1; 0]%Z HP Hr)).
    apply Exists_cons_tl. apply Exists_cons_hd. lia.
Defined.


End CompoundGrowth.

(** ** Percentage laws *)

Module PercentageLaws.

Import Exact ExactFacts.
Local Open Scope R_scope.

Lemma div_100 (x : R) : Rdiv_py x 100 = Ok (x / 100).
Proof. apply div_ok. lra. Qed.

Lemma value_eq (percent total : R) :
  Percentage.value percent total = Ok (percent / 100 * total).
Proof. unfold Percentage.value. cbn. rewrite div_100. reflexivity. Qed.

(** For a non-zero total, [of] reports a percentage that [value] turns back
    into the part; [remaining] is what is missing to the total and
    [percentage] is a hundred times [ratio]. *)
Theorem of_value_round_trip (part total : R) :
  total <> 0 ->
  exists res,
    Percentage.of_ part total = Ok res /\
    Percentage.value (percentage res) total = Ok part /\
    remaining res + part = total /\
    percentage res = ratio res * 100.
Proof.
  intros Ht. unfold Percentage.of_. cbn.
  rewrite Reqb_false by exact Ht. rewrite !div_ok by exact Ht. cbn.
  eexists. split; [reflexivity |]. cbn. rewrite value_eq.
  repeat split; try ring. f_equal. field. exact Ht.
Qed.

Lemma of_value_round_trip_witness :
  200 <> 0 /\
  exists res,
    Percentage.of_ (F := R) 25 200 = Ok res /\
    Percentage.value (percentage res) 200 = Ok 25 /\
    remaining res + 25 = 200 /\
    percentage res = ratio res * 100.
Proof.
  assert (Ht : 200 <> 0) by lra.
  split; [exact Ht |]. exact (of_value_round_trip 25 200 Ht).
Defined.

(** For a non-zero percent, [find_total] undoes [value] and [value] undoes
    [find_total]. *)
Theorem find_total_value_round_trip (x percent : R) :
  percent <> 0 ->
  (exists v,
     Percentage.value percent x = Ok v /\
     Percentage.find_total v percent = Ok x) /\
  (exists t,
     Percentage.find_total x percent = Ok t /\
     Percentage.value percent t = Ok x).
Proof.
  intros Hp. split.
  - rewrite value_eq. eexists. split; [reflexivity |].
    unfold Percentage.find_total. cbn. rewrite Reqb_false by exact Hp.
    rewrite div_ok by exact Hp. f_equal. field. exact Hp.
  - unfold Percentage.find_total. cbn. rewrite Reqb_false by exact Hp.
    rewrite div_ok by exact Hp. eexists. split; [reflexivity |].
    rewrite value_eq. f_equal. field. exact Hp.
Qed.

Lemma find_total_value_round_trip_witness :
  15 <> 0 /\
  (exists v,
     Percentage.value (F := R) 15 200 = Ok v /\
     Percentage.find_total v 15 = Ok 200) /\
  (exists t,
     Percentage.find_total (F := R) 200 15 = Ok t /\
     Percentage.value 15 t = Ok 200).
Proof.
  assert (Hp : 15 <> 0) by lra.
  split; [exact Hp |]. exact (find_total_value_round_trip 200 15 Hp).
Defined.

(** For a non-zero old value, [change] returns a percentage [c] with
    [new = old + |old| * c / 100]; dividing by [|old|] makes the sign of [c]
    the direction of the change, also for a negative old value. *)
Theorem change_direction (old new : R) :
  old <> 0 ->
  exists c,
    Percentage.change old new = Ok c /\
    new = old + Rabs old * c / 100 /\
    (0 < c <-> old < new) /\
    (c = 0 <-> new = old).
Proof.
  intros Ho. unfold Percentage.change. cbn.
  rewrite Reqb_false by exact Ho.
  assert (Ha : 0 < Rabs old) by (apply Rabs_pos_lt; exact Ho).
  rewrite div_ok by lra. cbn.
  eexists. split; [reflexivity |].
  assert (Hi : 0 < / Rabs old) by (apply Rinv_0_lt_compat; exact Ha).
  split; [field; lra |].
  unfold Rdiv. split; split; intros Hx.
  - assert (0 < (new - old) * / Rabs old) by lra. nra.
  - assert (0 < (new - old) * / Rabs old); [| lra].
    apply Rmult_lt_0_compat; lra.
  - assert (E : (new - old) * / Rabs old = 0) by lra.
    apply Rmult_integral in E. destruct E; lra.
  - subst new. ring.
Qed.

Lemma change_direction_witness :
  -80 <> 0 /\
  exists c,
    Percentage.change (F := R) (-80) (-100) = Ok c /\
    -100 = -80 + Rabs (-80) * c / 100 /\
    (0 < c <-> -80 < -100) /\
    (c = 0 <-> -100 = -80).
Proof.
  assert (Ho : -80 <> 0) by lra.
  split; [exact Ho |]. exact (change_direction (-80) (-100) Ho).
Defined.

(** Margin and markup describe the same profit: for a non-zero revenue and
    cost, [markup * cost = margin * revenue]; and for a positive revenue and
    a cost that is not negative the margin is at most 100. *)
Theorem margin_markup (revenue cost : R) :
  revenue <> 0 -> cost <> 0 ->
  exists mg mk,
    Percentage.margin revenue cost = Ok mg /\
    Percentage.markup cost revenue = Ok mk /\
    mk * cost = mg * revenue /\
    (0 < revenue -> 0 <= cost -> mg <= 100).
Proof.
  intros Hr Hc. unfold Percentage.margin, Percentage.markup. cbn.
  rewrite !Reqb_false by assumption. rewrite !div_ok by assumption. cbn.
  eexists. eexists. split; [reflexivity |]. split; [reflexivity |].
  split; [field; split; assumption |].
  intros Hpos Hcost.
  assert (Hi : 0 < / revenue) by (apply Rinv_0_lt_compat; exact Hpos).
  unfold Rdiv.
  replace ((revenue - cost) * / revenue) with (1 - cost * / revenue)
    by (field; lra).
  assert (0 <= cost * / revenue) by nra. lra.
Qed.

Lemma margin_markup_witness :
  1000 <> 0 /\ 600 <> 0 /\
  exists mg mk,
    Percentage.margin (F := R) 1000 600 = Ok mg /\
    Percentage.markup 600 1000 = Ok mk /\
    mk * 600 = mg * 1000 /\
    (0 < 1000 -> 0 <= 600 -> mg <= 100).
Proof.
  assert (Hr : 1000 <> 0) by lra.
  assert (Hc : 600 <> 0) by lra.
  split; [exact Hr |]. split; [exact Hc |].
  exact (margin_markup 1000 600 Hr Hc).
Defined.

End PercentageLaws.

(** ** Annuities *)

Module Annuities.

Import Exact ExactFacts ExactSpec.
Local Open Scope R_scope.

Lemma compounded_payments_closed (payment q : R) (n : nat) :
  compounded_payments payment q n * (q - 1) = payment * (q ^ n - 1).
Proof.
  induction n as [| n IH]; cbn [compounded_payments pow].
  - ring.
  - rewrite Rmult_plus_distr_r, IH. ring.
Qed.

Lemma discounted_payments_closed (payment q : R) (n : nat) :
  q <> 0 ->
  discounted_payments payment q n * (q - 1) = payment * (1 - / q ^ n).
Proof.
  intros Hq. induction n as [| n IH]; cbn [discounted_payments].
  - simpl. rewrite Rinv_1. ring.
  - rewrite Rmult_plus_distr_r, IH.
    assert (q ^ n <> 0) by (apply pow_nonzero; exact Hq).
    simpl. field. split; assumption.
Qed.

Lemma compounded_payments_1 (payment : R) (n : nat) :
  compounded_payments payment 1 n = payment * INR n.
Proof.
  induction n as [| n IH].
  - simpl. ring.
  - cbn [compounded_payments]. rewrite IH, pow1, S_INR. ring.
Qed.

Lemma discounted_payments_1 (payment : R) (n : nat) :
  discounted_payments payment 1 n = payment * INR n.
Proof.
  induction n as [| n IH].
  - simpl. ring.
  - cbn [discounted_payments]. rewrite IH, pow1, S_INR. field.
Qed.

Lemma IZR_INR_to_nat (n : Z) : (0 <= n)%Z -> IZR n = INR (Z.to_nat n).
Proof.
  intros Hn. rewrite INR_IZR_INZ. rewrite Z2Nat.id by exact Hn. reflexivity.
Qed.

Lemma powi_negated (q : R) (n : Z) :
  (0 <= n)%Z -> q <> 0 -> Rpowi q (- n) = Ok (/ q ^ Z.to_nat n).
Proof.
  intros Hn Hq. unfold Rpowi. rewrite (Reqb_false _ _ Hq).
  rewrite andb_false_r. f_equal. rewrite powerRZ_neg'. f_equal.
  rewrite <- (Z2Nat.id n) at 1 by exact Hn. symmetry. apply pow_powerRZ.
Qed.

Lemma fv_annuity_exact (payment rate : R) (periods : Z) :
  (0 <= periods)%Z ->
  TimeValue.fv_annuity payment rate periods
    = Ok (compounded_payments payment (1 + rate) (Z.to_nat periods)).
Proof.
  intros Hn. unfold TimeValue.fv_annuity. cbn.
  destruct (Reqb_spec rate 0) as [E | E].
  - subst rate. replace (1 + 0) with 1 by ring.
    rewrite compounded_payments_1, <- IZR_INR_to_nat by exact Hn. reflexivity.
  - rewrite powi_nonneg by exact Hn. cbn. rewrite div_ok by exact E.
    f_equal.
    pose proof (compounded_payments_closed payment (1 + rate)
                  (Z.to_nat periods)) as Hc.
    replace (1 + rate - 1) with rate in Hc by ring.
    rewrite <- Hc. field. exact E.
Qed.

Lemma pv_annuity_exact (payment rate : R) (periods : Z) :
  (0 <= periods)%Z -> rate <> -1 ->
  TimeValue.pv_annuity payment rate periods
    = Ok (discounted_payments payment (1 + rate) (Z.to_nat periods)).
Proof.
  intros Hn Hr. unfold TimeValue.pv_annuity. cbn.
  destruct (Reqb_spec rate 0) as [E | E].
  - subst rate. replace (1 + 0) with 1 by ring.
    rewrite discounted_payments_1, <- IZR_INR_to_nat by exact Hn.
    reflexivity.
  - assert (Hq : 1 + rate <> 0) by lra.
    rewrite powi_negated by assumption. cbn. rewrite div_ok by exact E.
    f_equal.
    pose proof (discounted_payments_closed payment (1 + rate)
                  (Z.to_nat periods) Hq) as Hc.
    replace (1 + rate - 1) with rate in Hc by ring.
    rewrite <- Hc. field. exact E.
Qed.

Lemma pv_annuity_zero_base (payment : R) (periods : Z) :
  (1 <= periods)%Z ->
  TimeValue.pv_annuity payment (-1) periods = Raise ZeroDivisionError.
Proof.
  intros Hp. unfold TimeValue.pv_annuity. cbn. rewrite Reqb_false by lra.
  replace (1 + -1) with 0 by ring. unfold Rpowi.
  replace (- periods <? 0)%Z with true by (symmetry; apply Z.ltb_lt; lia).
  rewrite Reqb_true by reflexivity. reflexivity.
Qed.

(** For [periods >= 0] and every rate, [fv_annuity] is the sum of the
    payments, each compounded from its own period to the last one; the
    [rate = 0] branch and the formula agree on it. *)
Theorem fv_annuity_is_sum (payment rate : R) (periods : Z) :
  (0 <= periods)%Z ->
  TimeValue.fv_annuity payment rate periods
    = Ok (compounded_payments payment (1 + rate) (Z.to_nat periods)).
Proof. apply fv_annuity_exact. Qed.

Lemma fv_annuity_is_sum_witness :
  (0 <= 3)%Z /\
  TimeValue.fv_annuity (F := R) 100 1 3
    = Ok (compounded_payments 100 (1 + 1) 3).
Proof.
  assert (Hn : (0 <= 3)%Z) by lia.
  split; [exact Hn |]. exact (fv_annuity_is_sum 100 1 3 Hn).
Defined.

(** For [periods >= 0] and a rate other than [-1], [pv_annuity] is the sum of
    the payments, each discounted to the start; at [rate = -1] with at
    least one period the discount factor is [0.0 ** -periods] and the call
    raises ZeroDivisionError. *)
Theorem pv_annuity_is_sum (payment rate : R) (periods : Z) :
  (0 <= periods)%Z ->
  (rate <> -1 ->
   TimeValue.pv_annuity payment rate periods
     = Ok (discounted_payments payment (1 + rate) (Z.to_nat periods))) /\
  (rate = -1 -> (1 <= periods)%Z ->
   TimeValue.pv_annuity payment rate periods = Raise ZeroDivisionError).
Proof.
  intros Hn. split.
  - intros Hr. apply pv_annuity_exact; assumption.
  - intros -> Hp. apply pv_annuity_zero_base. exact Hp.
Qed.

Lemma pv_annuity_is_sum_witness :
  (0 <= 3)%Z /\
  TimeValue.pv_annuity (F := R) 100 1 3
    = Ok (discounted_payments 100 (1 + 1) 3) /\
  TimeValue.pv_annuity (F := R) 100 (-1) 3 = Raise ZeroDivisionError.
Proof.
  assert (Hn : (0 <= 3)%Z) by lia.
  split; [exact Hn |]. split.
  - apply (pv_annuity_is_sum 100 1 3 Hn). lra.
  - apply (pv_annuity_is_sum 100 (-1) 3 Hn); [reflexivity | lia].
Defined.

Lemma compounded_is_discounted (payment q : R) (n : nat) :
  q <> 0 ->
  compounded_payments payment q n = discounted_payments payment q n * q ^ n.
Proof.
  intros Hq. destruct (Req_dec_T q 1) as [E | E].
  - subst q. rewrite compounded_payments_1, discounted_payments_1, pow1. ring.
  - assert (Hq1 : q - 1 <> 0) by lra.
    apply Rmult_eq_reg_r with (q - 1); [| exact Hq1].
    rewrite compounded_payments_closed.
    replace (discounted_payments payment q n * q ^ n * (q - 1))
      with (discounted_payments payment q n * (q - 1) * q ^ n) by ring.
    rewrite discounted_payments_closed by exact Hq.
    assert (q ^ n <> 0) by (apply pow_nonzero; exact Hq).
    field. assumption.
Qed.

(** The future value of an annuity is its present value compounded over
    the periods. *)
Theorem fv_annuity_compounds_pv (payment rate : R) (periods : Z) :
  (0 <= periods)%Z -> rate <> -1 ->
  exists fv pv,
    TimeValue.fv_annuity payment rate periods = Ok fv /\
    TimeValue.pv_annuity payment rate periods = Ok pv /\
    fv = pv * (1 + rate) ^ Z.to_nat periods.
Proof.
  intros Hn Hr.
  rewrite fv_annuity_exact by exact Hn.
  rewrite pv_annuity_exact by assumption.
  eexists. eexists. split; [reflexivity |]. split; [reflexivity |].
  apply compounded_is_discounted. lra.
Qed.

Lemma fv_annuity_compounds_pv_witness :
  (0 <= 120)%Z /\ 1 <> -1 /\
  exists fv pv,
    TimeValue.fv_annuity (F := R) 5000 1 120 = Ok fv /\
    TimeValue.pv_annuity 5000 1 120 = Ok pv /\
    fv = pv * (1 + 1) ^ Z.to_nat 120.
Proof.
  assert (Hn : (0 <= 120)%Z) by lia.
  assert (Hr : 1 <> -1) by lra.
  split; [exact Hn |]. split; [exact Hr |].
  exact (fv_annuity_compounds_pv 5000 1 120 Hn Hr).
Defined.

(** [affordable_principal] is [pv_annuity] at the monthly rate: for
    [months >= 0] the two calls agree, in the value returned and in
    raising. *)
Theorem affordable_principal_is_pv_annuity (monthly_budget annual_rate : R)
  (months : Z) :
  (0 <= months)%Z ->
  LoanAmortization.affordable_principal monthly_budget annual_rate months
    = TimeValue.pv_annuity monthly_budget (annual_rate / 12) months.
Proof.
  intros Hn. rewrite LoanExact.affordable_principal_eq by exact Hn.
  cbv zeta. unfold TimeValue.pv_annuity. cbn.
  set (rm := annual_rate / 12).
  destruct (Reqb_spec rm 0) as [E | E]; [reflexivity |].
  destruct (Req_dec_T (1 + rm) 0) as [Hq | Hq].
  - (* the base is zero *)
    rewrite Hq. destruct (Z.eq_dec months 0) as [-> | Hm].
    + cbn. rewrite !div_ok by lra. cbn. f_equal. field. exact E.
    + unfold Rpowi.
      replace (- months <? 0)%Z with true by (symmetry; apply Z.ltb_lt; lia).
      rewrite Reqb_true by reflexivity. cbn.
      rewrite pow_i by lia. rewrite Rmult_0_r. rewrite div_zero. reflexivity.
  - assert (Hg : (1 + rm) ^ Z.to_nat months <> 0)
      by (apply pow_nonzero; exact Hq).
    rewrite powi_negated by assumption. cbn.
    rewrite div_ok by (apply Rmult_integral_contrapositive; split; assumption).
    rewrite div_ok by exact E. cbn. f_equal. field. split; assumption.
Qed.

Lemma affordable_principal_is_pv_annuity_witness :
  (0 <= 36)%Z /\
  LoanAmortization.affordable_principal (F := R) 20000 24 36
    = TimeValue.pv_annuity 20000 (24 / 12) 36.
Proof.
  assert (Hn : (0 <= 36)%Z) by lia.
  split; [exact Hn |].
  exact (affordable_principal_is_pv_annuity 20000 24 36 Hn).
Defined.

End Annuities.

(** ** The amortization schedule as a whole *)

Module LoanTotals.

Import Exact ExactFacts ExactSpec.
Local Open Scope R_scope.

(** [schedule], when it returns, in terms of its loop. *)
Lemma schedule_returns_exact (principal annual_rate : R) (months : Z)
  (res : LoanResult R) :
  LoanAmortization.schedule principal annual_rate months = Ok res ->
  exists payment0,
    LoanAmortization.monthly_payment principal annual_rate months
      = Ok payment0 /\
    0 < principal /\ (1 <= months)%Z /\
    let run :=
      LoanAmortization.schedule_loop (annual_rate / 12) (Z.to_nat months) 1%Z
        (initial_state payment0 principal) in
    schedule res = fst run /\
    total_paid res = LoanAmortization.py_sum (map payment (fst run)) /\
    total_interest res = LoanAmortization.st_cum_interest (snd run) /\
    interest_ratio res = total_interest res / principal /\
    monthly_payment res
      = match fst run with r :: _ => payment r | [] => 0 end.
Proof.
  intros Hres.
  destruct (Rle_lt_dec principal 0) as [HP | HP].
  { rewrite LoanExact.schedule_invalid in Hres by (left; exact HP).
    discriminate. }
  destruct (Z_lt_dec months 1) as [HN | HN].
  { rewrite LoanExact.schedule_invalid in Hres by (right; exact HN).
    discriminate. }
  unfold LoanAmortization.schedule in Hres.
  change (div annual_rate (of_int 12)) with (Rdiv_py annual_rate 12) in Hres.
  rewrite div_12 in Hres. cbn [bind] in Hres.
  destruct (LoanAmortization.monthly_payment principal annual_rate months)
    as [payment0 | e]; [| discriminate].
  cbn [bind] in Hres. exists payment0. split; [reflexivity |].
  split; [exact HP |]. split; [lia |].
  change (of_int 0) with 0 in Hres.
  fold (initial_state payment0 principal) in Hres. cbv zeta.
  destruct (LoanAmortization.schedule_loop (annual_rate / 12)
              (Z.to_nat months) 1%Z (initial_state payment0 principal))
    as [rows st].
  change (ltb 0 principal) with (Rltb 0 principal) in Hres.
  rewrite (Rltb_true _ _ HP) in Hres.
  change (div (LoanAmortization.st_cum_interest st) principal)
    with (Rdiv_py (LoanAmortization.st_cum_interest st) principal) in Hres.
  rewrite div_ok in Hres by lra. cbn [bind] in Hres.
  injection Hres as <-. cbn. repeat split.
Qed.

(** One iteration keeps [balance + cumulative principal], whatever the
    rate, and leaves a balance that is not negative: the principal part
    never exceeds the balance, so the floor at zero changes nothing. *)
Lemma schedule_step_conserves (rm : R) (k : Z)
  (st : LoanAmortization.loop_state R) :
  let st' := fst (LoanAmortization.schedule_step rm k st) in
  let row := snd (LoanAmortization.schedule_step rm k st) in
  LoanAmortization.st_balance st' + LoanAmortization.st_cum_principal st'
    = LoanAmortization.st_balance st + LoanAmortization.st_cum_principal st /\
  0 <= LoanAmortization.st_balance st' /\
  remaining_balance row = LoanAmortization.st_balance st' /\
  cumulative_principal row = LoanAmortization.st_cum_principal st' /\
  cumulative_interest row = LoanAmortization.st_cum_interest st' /\
  payment row = principal_part row + interest_part row.
Proof.
  destruct st as [pay b ci cp].
  unfold LoanAmortization.schedule_step. cbn.
  destruct (Rltb_spec b (pay - b * rm)) as [Hover | Hover].
  - replace (b - b) with 0 by ring. rewrite Rltb_false by lra. cbn.
    repeat split; lra.
  - destruct (Rltb_spec (b - (pay - b * rm)) 0) as [Hneg | Hneg]; [lra |].
    cbn. repeat split; lra.
Qed.

Lemma schedule_loop_conserves (rm : R) (n : nat) :
  forall k st i row,
    nth_error (fst (LoanAmortization.schedule_loop rm n k st)) i = Some row ->
    remaining_balance row + cumulative_principal row
      = LoanAmortization.st_balance st + LoanAmortization.st_cum_principal st
    /\ 0 <= remaining_balance row
    /\ payment row = principal_part row + interest_part row.
Proof.
  induction n as [| n IH]; intros k st i row Hnth.
  - destruct i; discriminate.
  - rewrite schedule_loop_S in Hnth. cbn [fst] in Hnth.
    destruct (schedule_step_conserves rm k st)
      as (Hsum & Hpos & Eb & Ecp & Eci & Hpay).
    destruct i as [| i].
    + cbn [nth_error] in Hnth.
      assert (E : snd (LoanAmortization.schedule_step rm k st) = row)
        by congruence.
      rewrite <- E, Eb, Ecp. tauto.
    + cbn [nth_error] in Hnth.
      destruct (IH _ _ _ _ Hnth) as (Hs & Hp & Hq).
      rewrite Hs, Hsum. tauto.
Qed.

(** Whenever [schedule] returns, every row splits the principal into what
    is still owed and what has been repaid:
    [remaining_balance + cumulative_principal = principal], with a
    remaining balance that is not negative, at any rate. *)
Theorem schedule_conserves_principal (principal annual_rate : R) (months : Z)
  (res : LoanResult R) :
  LoanAmortization.schedule principal annual_rate months = Ok res ->
  forall i row,
    nth_error (schedule res) i = Some row ->
    remaining_balance row + cumulative_principal row = principal /\
    0 <= remaining_balance row /\
    payment row = principal_part row + interest_part row.
Proof.
  intros Hres i row Hnth.
  destruct (schedule_returns_exact _ _ _ _ Hres)
    as (payment0 & _ & _ & _ & Hrows & _).
  rewrite Hrows in Hnth.
  destruct (schedule_loop_conserves _ _ _ _ _ _ Hnth) as (Hs & Hp & Hq).
  cbn in Hs. repeat split; try assumption. lra.
Qed.

Lemma schedule_conserves_principal_witness :
  exists res,
    LoanAmortization.schedule (F := R) 1000 (-6) 4 = Ok res /\
    forall i row,
      nth_error (schedule res) i = Some row ->
      remaining_balance row + cumulative_principal row = 1000 /\
      0 <= remaining_balance row /\
      payment row = principal_part row + interest_part row.
Proof.
  assert (HP : 0 < 1000) by lra.
  assert (HN : (1 <= 4)%Z) by lia.
  assert (HM : returns
            (LoanAmortization.monthly_payment (F := R) 1000 (-6) 4)).
  { rewrite (LoanExact.monthly_payment_valid _ _ _ HP HN).
    unfold monthly_rate. cbv zeta. rewrite Reqb_false by lra.
    rewrite div_ok; [eexists; reflexivity |].
    change (Z.to_nat 4) with 4%nat. simpl. lra. }
  destruct HM as [M HM].
  destruct (LoanExact.schedule_rows _ _ _ _ HP HM) as [res [E _]].
  exists res. split; [exact E |].
  exact (schedule_conserves_principal 1000 (-6) 4 res E).
Defined.

(** *** Rows in closed form *)

Section ClosedForm.

(** A payment [M] and balances [B 0 .. B n] that satisfy the recurrence of
    the loop. *)
Variables (rm M : R) (n : nat) (B : nat -> R).
Hypothesis B_step : forall j, (j < n)%nat -> B j - (M - B j * rm) = B (S j).
Hypothesis B_nonneg : forall j, (j <= n)%nat -> 0 <= B j.

Lemma schedule_step_follows (k : Z) (st : LoanAmortization.loop_state R)
  (j : nat) :
  (j < n)%nat ->
  LoanAmortization.st_payment st = M ->
  LoanAmortization.st_balance st = B j ->
  let st' := fst (LoanAmortization.schedule_step rm k st) in
  let row := snd (LoanAmortization.schedule_step rm k st) in
  LoanAmortization.st_payment st' = M /\
  LoanAmortization.st_balance st' = B (S j) /\
  payment row = M /\
  interest_part row = B j * rm /\
  principal_part row = M - B j * rm /\
  remaining_balance row = B (S j).
Proof.
  intros Hj Hpay Hbal. destruct st as [pay b ci cp]. cbn in Hpay, Hbal.
  subst pay b. unfold LoanAmortization.schedule_step. cbn.
  pose proof (B_step j Hj) as Hs.
  pose proof (B_nonneg (S j) ltac:(lia)) as Hn.
  rewrite (Rltb_false (B j)) by lra. rewrite Hs.
  rewrite Rltb_false by lra. repeat split.
Qed.

Lemma schedule_loop_follows :
  forall m j k st,
    (j + m = n)%nat ->
    LoanAmortization.st_payment st = M ->
    LoanAmortization.st_balance st = B j ->
    (forall i row,
       nth_error (fst (LoanAmortization.schedule_loop rm m k st)) i
         = Some row ->
       payment row = M /\
       interest_part row = B (j + i) * rm /\
       principal_part row = M - B (j + i) * rm /\
       remaining_balance row = B (S (j + i))) /\
    LoanAmortization.st_balance
      (snd (LoanAmortization.schedule_loop rm m k st)) = B n.
Proof.
  induction m as [| m IH]; intros j k st Hjm Hpay Hbal.
  - split.
    + intros i row Hnth. destruct i; discriminate.
    + cbn. rewrite Hbal. f_equal. lia.
  - rewrite schedule_loop_S. cbn [fst snd].
    destruct (schedule_step_follows k st j ltac:(lia) Hpay Hbal)
      as (Hpay' & Hbal' & Rp & Ri & Rpp & Rb).
    destruct (IH (S j) (k + 1)%Z _ ltac:(lia) Hpay' Hbal') as [Hrows Hend].
    split; [| exact Hend].
    intros i row Hnth. destruct i as [| i].
    + cbn [nth_error] in Hnth.
      assert (E : snd (LoanAmortization.schedule_step rm k st) = row)
        by congruence.
      rewrite <- E, Nat.add_0_r. tauto.
    + cbn [nth_error] in Hnth.
      replace (j + S i)%nat with (S j + i)%nat by lia.
      apply Hrows. exact Hnth.
Qed.

End ClosedForm.

Lemma interest_free_step (principal : R) (n j : nat) :
  (0 < n)%nat ->
  interest_free_balance principal n j
    - (principal / INR n - interest_free_balance principal n j * 0)
  = interest_free_balance principal n (S j).
Proof.
  intros Hn. unfold interest_free_balance. rewrite S_INR.
  assert (0 < INR n) by (apply lt_0_INR; exact Hn). field. lra.
Qed.

Lemma interest_free_nonneg (principal : R) (n j : nat) :
  0 < principal -> (0 < n)%nat -> (j <= n)%nat ->
  0 <= interest_free_balance principal n j.
Proof.
  intros HP Hn Hj. unfold interest_free_balance.
  assert (Hn' : 0 < INR n) by (apply lt_0_INR; exact Hn).
  assert (Hj' : INR j <= INR n) by (apply le_INR; exact Hj).
  assert (0 <= INR j) by apply pos_INR.
  replace (principal - INR j * (principal / INR n))
    with (principal * ((INR n - INR j) / INR n)) by (field; lra).
  apply Rmult_le_pos; [lra |].
  apply Rmult_le_pos; [lra |]. left. apply Rinv_0_lt_compat. exact Hn'.
Qed.

Lemma interest_free_end (principal : R) (n : nat) :
  (0 < n)%nat -> interest_free_balance principal n n = 0.
Proof.
  intros Hn. unfold interest_free_balance.
  assert (0 < INR n) by (apply lt_0_INR; exact Hn). field. lra.
Qed.

Lemma scheduled_recurrence (principal rm : R) (n : nat) :
  0 < principal -> 0 <= rm -> (0 < n)%nat ->
  (forall j, (j < n)%nat ->
     scheduled_balance principal rm n j
       - (scheduled_payment principal rm n
          - scheduled_balance principal rm n j * rm)
     = scheduled_balance principal rm n (S j)) /\
  (forall j, (j <= n)%nat -> 0 <= scheduled_balance principal rm n j) /\
  scheduled_balance principal rm n 0 = principal /\
  scheduled_balance principal rm n n = 0.
Proof.
  intros HP Hrm Hn. unfold scheduled_balance, scheduled_payment.
  destruct (Req_dec_T rm 0) as [E | E].
  - subst rm. repeat split.
    + intros j _. apply interest_free_step. exact Hn.
    + intros j Hj. apply interest_free_nonneg; assumption.
    + unfold interest_free_balance. simpl. ring.
    + apply interest_free_end. exact Hn.
  - assert (Hpos : 0 < rm) by lra. repeat split.
    + intros j _. apply LoanExact.balance_after_step; assumption.
    + intros j Hj. apply LoanExact.balance_after_nonneg; assumption.
    + apply LoanExact.balance_after_0; assumption.
    + apply LoanExact.balance_after_end.
Qed.

Lemma monthly_payment_scheduled (principal annual_rate : R) (months : Z) :
  0 < principal -> 0 <= annual_rate -> (1 <= months)%Z ->
  LoanAmortization.monthly_payment principal annual_rate months
    = Ok (scheduled_payment principal (annual_rate / 12) (Z.to_nat months)).
Proof.
  intros HP Hr HN. rewrite (LoanExact.monthly_payment_valid _ _ _ HP HN).
  unfold monthly_rate, scheduled_payment. cbv zeta.
  set (rm := annual_rate / 12). unfold Reqb.
  destruct (Req_dec_T rm 0) as [E | E].
  - rewrite INR_IZR_INZ, Z2Nat.id by lia. reflexivity.
  - assert (Hrm : 0 < rm) by (unfold rm in *; lra).
    assert (1 < (1 + rm) ^ Z.to_nat months)
      by (apply pow_gt_1; [lra | lia]).
    apply div_ok. lra.
Qed.

(** [schedule] at a rate that is not negative, with its rows. *)
Lemma schedule_scheduled (principal annual_rate : R) (months : Z) :
  0 < principal -> 0 <= annual_rate -> (1 <= months)%Z ->
  let rm := annual_rate / 12 in
  let n := Z.to_nat months in
  let M := scheduled_payment principal rm n in
  let B := scheduled_balance principal rm n in
  exists res,
    LoanAmortization.schedule principal annual_rate months = Ok res /\
    length (schedule res) = n /\
    (forall i row,
       nth_error (schedule res) i = Some row ->
       payment row = M /\
       interest_part row = B i * rm /\
       principal_part row = M - B i * rm /\
       remaining_balance row = B (S i)) /\
    total_paid res = LoanAmortization.py_sum (map payment (schedule res)) /\
    total_interest res
      = LoanAmortization.st_cum_interest
          (snd (LoanAmortization.schedule_loop rm n 1%Z
                  (initial_state M principal))) /\
    schedule res
      = fst (LoanAmortization.schedule_loop rm n 1%Z
               (initial_state M principal)) /\
    interest_ratio res = total_interest res / principal /\
    monthly_payment res = M.
Proof.
  intros HP Hr HN rm n M B.
  assert (Hrm : 0 <= rm) by (unfold rm; lra).
  assert (Hn : (0 < n)%nat) by (unfold n; lia).
  destruct (scheduled_recurrence principal rm n HP Hrm Hn)
    as (Hstep & Hnonneg & H0 & Hend).
  pose proof (monthly_payment_scheduled _ _ _ HP Hr HN) as HM.
  fold rm in HM. fold n in HM. fold M in HM.
  destruct (LoanExact.schedule_rows _ _ _ _ HP HM) as [res [Hres Hrows]].
  fold rm in Hrows. fold n in Hrows.
  destruct (schedule_returns_exact _ _ _ _ Hres)
    as (M' & HM' & _ & _ & _ & Htp & Hti & Hir & Hmp).
  assert (M' = M) by congruence. subst M'.
  fold rm in Htp, Hti, Hmp. fold n in Htp, Hti, Hmp.
  destruct (schedule_loop_follows rm M n B Hstep Hnonneg n 0%nat 1%Z
              (initial_state M principal) ltac:(lia) eq_refl
              ltac:(symmetry; exact H0)) as [Hfollow _].
  exists res. split; [exact Hres |]. rewrite Hrows.
  split; [apply schedule_loop_length |].
  split; [exact Hfollow |]. split; [exact Htp |]. split; [exact Hti |].
  split; [reflexivity |]. split; [exact Hir |].
  rewrite Hmp.
  pose proof (schedule_loop_length rm n 1%Z (initial_state M principal))
    as Hlen.
  destruct (fst (LoanAmortization.schedule_loop rm n 1%Z
                   (initial_state M principal))) as [| r0 rest] eqn:Erows.
  - cbn in Hlen. lia.
  - apply (Hfollow 0%nat r0). reflexivity.
Qed.

(** At a positive rate every row carries the annuity payment, the interest
    on the balance before it and the balance of the closed form
    [principal * ((1+rm)^n - (1+rm)^j) / ((1+rm)^n - 1)] after it, and the
    result reports the annuity as its monthly payment. *)
Theorem schedule_rows_closed_form (principal annual_rate : R) (months : Z) :
  0 < principal -> 0 < annual_rate -> (1 <= months)%Z ->
  let rm := annual_rate / 12 in
  let n := Z.to_nat months in
  exists res,
    LoanAmortization.schedule principal annual_rate months = Ok res /\
    monthly_payment res = annuity principal rm n /\
    forall i row,
      nth_error (schedule res) i = Some row ->
      payment row = annuity principal rm n /\
      interest_part row = balance_after principal rm n i * rm /\
      remaining_balance row = balance_after principal rm n (S i).
Proof.
  intros HP Hr HN rm n.
  destruct (schedule_scheduled principal annual_rate months HP
              ltac:(lra) HN)
    as (res & Hres & _ & Hrows & _ & _ & _ & _ & Hmp).
  fold rm in Hrows, Hmp. fold n in Hrows, Hmp.
  unfold scheduled_payment, scheduled_balance in Hrows, Hmp.
  assert (E : rm <> 0) by (unfold rm; lra).
  destruct (Req_dec_T rm 0) as [E0 | _]; [contradiction |].
  exists res. split; [exact Hres |]. split; [exact Hmp |].
  intros i row Hnth. destruct (Hrows i row Hnth) as (A & B & _ & D). tauto.
Qed.

Lemma schedule_rows_closed_form_witness :
  0 < 1000 /\ 0 < 12 /\ (1 <= 6)%Z /\
  exists res,
    LoanAmortization.schedule (F := R) 1000 12 6 = Ok res /\
    monthly_payment res = annuity 1000 (12 / 12) (Z.to_nat 6).
Proof.
  assert (HP : 0 < 1000) by lra.
  assert (Hr : 0 < 12) by lra.
  assert (HN : (1 <= 6)%Z) by lia.
  destruct (schedule_rows_closed_form 1000 12 6 HP Hr HN)
    as [res [E [Hmp _]]].
  repeat split; try assumption. exists res. split; assumption.
Defined.


(** *** Totals *)

Lemma py_sum_Rsum (xs : list R) : LoanAmortization.py_sum xs = Rsum xs.
Proof.
  unfold LoanAmortization.py_sum, Rsum. cbn.
  apply fold_symmetric; intros; ring.
Qed.

Lemma Rsum_constant (xs : list R) (c : R) :
  Forall (fun x => x = c) xs -> Rsum xs = INR (length xs) * c.
Proof.
  induction 1 as [| x rest Hx Hrest IH].
  - simpl. ring.
  - subst x. cbn [Rsum fold_right length]. fold (Rsum rest).
    rewrite IH, S_INR. ring.
Qed.

Lemma Rsum_nonneg (xs : list R) :
  Forall (fun x => 0 <= x) xs -> 0 <= Rsum xs.
Proof.
  induction 1 as [| x rest Hx Hrest IH].
  - simpl. lra.
  - cbn [Rsum fold_right]. fold (Rsum rest). lra.
Qed.

Lemma Forall_nth_error {A : Type} (P : A -> Prop) (xs : list A) :
  (forall i x, nth_error xs i = Some x -> P x) -> Forall P xs.
Proof.
  intros Hall. apply Forall_forall. intros x Hin.
  destruct (In_nth_error _ _ Hin) as [i Hi]. exact (Hall i x Hi).
Qed.

(** The running totals at the end of the loop are the sums over the rows,
    and the payments add up to principal parts plus interest parts. *)
Lemma schedule_loop_sums (rm : R) (n : nat) :
  forall k st,
    let run := LoanAmortization.schedule_loop rm n k st in
    LoanAmortization.st_cum_interest (snd run)
      = LoanAmortization.st_cum_interest st
        + Rsum (map interest_part (fst run)) /\
    LoanAmortization.st_balance (snd run)
      + Rsum (map principal_part (fst run))
      = LoanAmortization.st_balance st /\
    Rsum (map payment (fst run))
      = Rsum (map principal_part (fst run))
        + Rsum (map interest_part (fst run)).
Proof.
  induction n as [| n IH]; intros k st; cbv zeta.
  - cbn. repeat split; ring.
  - rewrite schedule_loop_S. cbn [fst snd map Rsum fold_right].
    fold (Rsum (map interest_part
                  (fst (LoanAmortization.schedule_loop rm n (k + 1)%Z
                          (fst (LoanAmortization.schedule_step rm k st)))))).
    fold (Rsum (map principal_part
                  (fst (LoanAmortization.schedule_loop rm n (k + 1)%Z
                          (fst (LoanAmortization.schedule_step rm k st)))))).
    fold (Rsum (map payment
                  (fst (LoanAmortization.schedule_loop rm n (k + 1)%Z
                          (fst (LoanAmortization.schedule_step rm k st)))))).
    destruct (IH (k + 1)%Z (fst (LoanAmortization.schedule_step rm k st)))
      as (Hci & Hb & Hp).
    destruct (schedule_step_conserves rm k st)
      as (Hsum & _ & _ & Ecp & Eci & Hpay).
    assert (Hinterest :
      LoanAmortization.st_cum_interest
        (fst (LoanAmortization.schedule_step rm k st))
      = LoanAmortization.st_cum_interest st
        + interest_part (snd (LoanAmortization.schedule_step rm k st)))
      by reflexivity.
    assert (Hprincipal :
      LoanAmortization.st_cum_principal
        (fst (LoanAmortization.schedule_step rm k st))
      = LoanAmortization.st_cum_principal st
        + principal_part (snd (LoanAmortization.schedule_step rm k st)))
      by reflexivity.
    repeat split; lra.
Qed.

Lemma schedule_accounts (principal annual_rate : R) (months : Z) :
  0 < principal -> 0 <= annual_rate -> (1 <= months)%Z ->
  exists res,
    LoanAmortization.schedule principal annual_rate months = Ok res /\
    (forall i row,
       nth_error (schedule res) i = Some row ->
       payment row
         = scheduled_payment principal (annual_rate / 12) (Z.to_nat months) /\
       interest_part row
         = scheduled_balance principal (annual_rate / 12) (Z.to_nat months) i
           * (annual_rate / 12) /\
       principal_part row
         = scheduled_payment principal (annual_rate / 12) (Z.to_nat months)
           - scheduled_balance principal (annual_rate / 12)
               (Z.to_nat months) i * (annual_rate / 12) /\
       remaining_balance row
         = scheduled_balance principal (annual_rate / 12) (Z.to_nat months)
             (S i)) /\
    total_paid res = principal + total_interest res /\
    total_paid res = IZR months * monthly_payment res /\
    total_interest res = Rsum (map interest_part (schedule res)) /\
    interest_ratio res = total_interest res / principal /\
    0 <= total_interest res /\
    (0 < annual_rate -> principal < total_paid res).
Proof.
  intros HP Hr HN.
  destruct (schedule_scheduled principal annual_rate months HP Hr HN)
    as (res & Hres & Hlen & Hrows & Htp & Hti & Hsched & Hir & Hmp).
  set (rm := annual_rate / 12) in *. set (n := Z.to_nat months) in *.
  set (M := scheduled_payment principal rm n) in *.
  assert (Hrm : 0 <= rm) by (unfold rm; lra).
  assert (Hn : (0 < n)%nat) by (unfold n; lia).
  destruct (scheduled_recurrence principal rm n HP Hrm Hn)
    as (Hstep & Hnonneg & H0 & Hend).
  destruct (schedule_loop_sums rm n 1%Z (initial_state M principal))
    as (Hci & Hb & Hp).
  rewrite <- Hsched in Hci, Hb, Hp. rewrite <- Hti in Hci.
  cbn [initial_state LoanAmortization.st_cum_interest
       LoanAmortization.st_balance] in Hci, Hb.
  destruct (schedule_loop_follows rm M n _ Hstep Hnonneg n 0%nat 1%Z
              (initial_state M principal) ltac:(lia) eq_refl
              ltac:(symmetry; exact H0)) as [_ Hfinal].
  rewrite Hfinal, Hend in Hb.
  rewrite py_sum_Rsum in Htp.
  assert (Hint : Forall (fun x => 0 <= x) (map interest_part (schedule res))).
  { apply Forall_map. apply Forall_nth_error. intros i row Hnth.
    destruct (Hrows i row Hnth) as (_ & Hi & _).
    rewrite Hi. apply Rmult_le_pos; [| exact Hrm].
    apply Hnonneg.
    assert (i < length (schedule res))%nat
      by (apply nth_error_Some; congruence).
    lia. }
  assert (Hconst : Rsum (map payment (schedule res)) = INR n * M).
  { rewrite <- Hlen, <- (length_map payment). apply Rsum_constant.
    apply Forall_map. apply Forall_nth_error. intros i row Hnth.
    apply (Hrows i row Hnth). }
  assert (Htot : total_paid res = principal + total_interest res) by lra.
  exists res. split; [exact Hres |].
  split; [exact Hrows |].
  split; [exact Htot |]. split.
  { rewrite Htp, Hconst, Hmp. unfold n.
    rewrite INR_IZR_INZ, Z2Nat.id by lia. reflexivity. }
  split; [lra |]. split; [exact Hir |].
  split; [rewrite Hci; pose proof (Rsum_nonneg _ Hint); lra |].
  intros Hpos.
  destruct (schedule res) as [| r0 rest] eqn:Erows.
  { cbn in Hlen. lia. }
  destruct (Hrows 0%nat r0 eq_refl) as (_ & Hi0 & _).
  rewrite H0 in Hi0.
  cbn [map Rsum fold_right] in Hci, Hint. fold (Rsum (map interest_part rest)) in Hci.
  pose proof (Rsum_nonneg _ (Forall_inv_tail Hint)).
  assert (0 < principal * rm) by (apply Rmult_lt_0_compat; unfold rm; lra).
  lra.
Qed.


(** At a rate that is not negative the loan is repaid in full and the
    summary fields fit together: [total_paid] is the principal plus
    [total_interest] and is [months] times the monthly payment,
    [interest_ratio] is [total_interest / principal], the interest is not
    negative, and at a positive rate more than the principal is paid. *)
Theorem schedule_totals (principal annual_rate : R) (months : Z) :
  0 < principal -> 0 <= annual_rate -> (1 <= months)%Z ->
  exists res,
    LoanAmortization.schedule principal annual_rate months = Ok res /\
    total_paid res = principal + total_interest res /\
    total_paid res = IZR months * monthly_payment res /\
    total_interest res = Rsum (map interest_part (schedule res)) /\
    interest_ratio res = total_interest res / principal /\
    0 <= total_interest res /\
    (0 < annual_rate -> principal < total_paid res).
Proof.
  intros HP Hr HN.
  destruct (schedule_accounts principal annual_rate months HP Hr HN)
    as (res & Hres & _ & Hrest).
  exists res. split; [exact Hres | exact Hrest].
Qed.

Lemma schedule_totals_witness :
  0 < 1000 /\ 0 <= 12 /\ (1 <= 6)%Z /\
  exists res,
    LoanAmortization.schedule (F := R) 1000 12 6 = Ok res /\
    total_paid res = 1000 + total_interest res /\
    total_paid res = IZR 6 * monthly_payment res /\
    1000 < total_paid res.
Proof.
  assert (HP : 0 < 1000) by lra.
  assert (Hr : 0 <= 12) by lra.
  assert (HN : (1 <= 6)%Z) by lia.
  destruct (schedule_totals 1000 12 6 HP Hr HN)
    as (res & E & A & B & _ & _ & _ & C).
  repeat split; try assumption. exists res.
  repeat split; try assumption. apply C. lra.
Defined.


(** An interest-free loan is repaid in equal instalments: every row has
    no interest and the payment [principal / months], the balance falls by
    that amount each month, no interest accrues and exactly the principal
    is paid. *)
Theorem schedule_interest_free (principal : R) (months : Z) :
  0 < principal -> (1 <= months)%Z ->
  exists res,
    LoanAmortization.schedule principal 0 months = Ok res /\
    (forall i row,
       nth_error (schedule res) i = Some row ->
       interest_part row = 0 /\
       payment row = principal / IZR months /\
       principal_part row = principal / IZR months /\
       remaining_balance row
         = principal - INR (S i) * (principal / IZR months)) /\
    total_interest res = 0 /\
    total_paid res = principal.
Proof.
  intros HP HN.
  destruct (schedule_accounts principal 0 months HP ltac:(lra) HN)
    as (res & Hres & Hrows & Htot & _ & Hti & _).
  assert (E0 : 0 / 12 = 0) by lra. rewrite E0 in Hrows.
  unfold scheduled_payment, scheduled_balance in Hrows.
  destruct (Req_dec_T 0 0) as [_ | Hne]; [| contradiction].
  assert (EN : INR (Z.to_nat months) = IZR months)
    by (rewrite INR_IZR_INZ, Z2Nat.id by lia; reflexivity).
  unfold interest_free_balance in Hrows. rewrite EN in Hrows.
  assert (Hzero : total_interest res = 0).
  { rewrite Hti. rewrite (Rsum_constant _ 0); [ring |].
    apply Forall_map. apply Forall_nth_error. intros i row Hnth.
    destruct (Hrows i row Hnth) as (_ & Hi & _). rewrite Hi. ring. }
  exists res. split; [exact Hres |]. split.
  - intros i row Hnth. destruct (Hrows i row Hnth) as (A & B & C & D).
    repeat split.
    + rewrite B. ring.
    + exact A.
    + rewrite C. ring.
    + exact D.
  - split; [exact Hzero | lra].
Qed.

Lemma schedule_interest_free_witness :
  0 < 12000 /\ (1 <= 12)%Z /\
  exists res,
    LoanAmortization.schedule (F := R) 12000 0 12 = Ok res /\
    total_interest res = 0 /\
    total_paid res = 12000.
Proof.
  assert (HP : 0 < 12000) by lra.
  assert (HN : (1 <= 12)%Z) by lia.
  destruct (schedule_interest_free 12000 12 HP HN)
    as (res & E & _ & A & B).
  repeat split; try assumption. exists res. repeat split; assumption.
Defined.

(** [affordable_principal] undoes [monthly_payment]: the payment of a loan
    at a rate that is not negative affords exactly its principal. *)
Theorem monthly_payment_affords_principal (principal annual_rate : R)
  (months : Z) :
  0 < principal -> 0 <= annual_rate -> (1 <= months)%Z ->
  exists m,
    LoanAmortization.monthly_payment principal annual_rate months = Ok m /\
    LoanAmortization.affordable_principal m annual_rate months
      = Ok principal.
Proof.
  intros HP Hr HN.
  rewrite (LoanExact.monthly_payment_valid _ _ _ HP HN).
  unfold monthly_rate. cbv zeta.
  set (rm := annual_rate / 12). set (n := Z.to_nat months).
  assert (HNR : 0 < IZR months) by (apply IZR_lt; lia).
  destruct (Reqb_spec rm 0) as [E | E].
  - eexists. split; [reflexivity |].
    rewrite LoanExact.affordable_principal_eq by lia. cbv zeta.
    fold rm. rewrite (Reqb_true _ _ E). f_equal. field. lra.
  - assert (Hrm : 0 < rm) by (unfold rm in *; lra).
    assert (Hg : 1 < (1 + rm) ^ n) by (apply pow_gt_1; [lra | unfold n; lia]).
    rewrite div_ok by lra. eexists. split; [reflexivity |].
    rewrite LoanExact.affordable_principal_eq by lia. cbv zeta.
    fold rm. fold n. rewrite (Reqb_false _ _ E).
    rewrite div_ok by nra. cbn [bind]. f_equal. field. lra.
Qed.

Lemma monthly_payment_affords_principal_witness :
  0 < 1000 /\ 0 <= 12 /\ (1 <= 6)%Z /\
  exists m,
    LoanAmortization.monthly_payment (F := R) 1000 12 6 = Ok m /\
    LoanAmortization.affordable_principal m 12 6 = Ok 1000.
Proof.
  assert (HP : 0 < 1000) by lra.
  assert (Hr : 0 <= 12) by lra.
  assert (HN : (1 <= 6)%Z) by lia.
  repeat split; try assumption.
  exact (monthly_payment_affords_principal 1000 12 6 HP Hr HN).
Defined.


(** *** [rate_comparison] *)

Lemma schedule_echoes_rate (p r : R) (m : Z) (res : LoanResult R) :
  LoanAmortization.schedule p r m = Ok res -> annual_rate res = r.
Proof.
  unfold LoanAmortization.schedule. intros Hres.
  destruct (div r (of_int 12)) as [rm | e]; [| discriminate].
  cbn [bind] in Hres.
  destruct (LoanAmortization.monthly_payment p r m) as [payment0 | e];
    [| discriminate].
  cbn [bind] in Hres.
  destruct (LoanAmortization.schedule_loop rm (Z.to_nat m) 1%Z _)
    as [rows st].
  destruct (ltb (of_int 0) p).
  - destruct (div (LoanAmortization.st_cum_interest st) p) as [q | e];
      [| discriminate].
    cbn [bind] in Hres. injection Hres as <-. reflexivity.
  - cbn [bind] in Hres. injection Hres as <-. reflexivity.
Qed.

(** [rate_comparison] over rates that are not negative returns one result
    per rate, in order: the schedule at that rate, which reports the rate
    and pays the principal plus its total interest. *)
Theorem rate_comparison_pointwise (p : R) (m : Z) (rates : list R) :
  0 < p -> (1 <= m)%Z -> Forall (fun r => 0 <= r) rates ->
  exists results,
    LoanAmortization.rate_comparison p m rates = Ok results /\
    length results = length rates /\
    forall i r,
      nth_error rates i = Some r ->
      exists res,
        nth_error results i = Some res /\
        LoanAmortization.schedule p r m = Ok res /\
        annual_rate res = r /\
        total_paid res = p + total_interest res.
Proof.
  intros HP HN Hall. unfold LoanAmortization.rate_comparison.
  assert (Hret : returns
            (py_map (fun r => LoanAmortization.schedule p r m) rates)).
  { apply Sweeps.py_map_returns.
    apply Forall_impl with (P := fun r => 0 <= r); [| exact Hall].
    intros r Hr.
    destruct (schedule_accounts p r m HP Hr HN) as (res & Hres & _).
    exists res. exact Hres. }
  destruct Hret as [results Hres]. exists results. split; [exact Hres |].
  destruct (Sweeps.py_map_pointwise _ _ _ Hres) as [Hlen Hpt].
  split; [exact Hlen |].
  intros i r Hnth. destruct (Hpt i r Hnth) as [res [Hi Hsched]].
  exists res. split; [exact Hi |]. split; [exact Hsched |].
  split; [exact (schedule_echoes_rate _ _ _ _ Hsched) |].
  assert (Hr : 0 <= r).
  { rewrite Forall_forall in Hall. apply Hall.
    apply nth_error_In with i. exact Hnth. }
  destruct (schedule_accounts p r m HP Hr HN) as (res' & Hres' & _ & Htot & _).
  assert (res' = res) by congruence. subst res'. exact Htot.
Qed.

Lemma rate_comparison_pointwise_witness :
  0 < 500000 /\ (1 <= 36)%Z /\
  exists results,
    LoanAmortization.rate_comparison (F := R) 500000 36 [0; 12; 24]
      = Ok results /\
    length results = 3%nat.
Proof.
  assert (HP : 0 < 500000) by lra.
  assert (HN : (1 <= 36)%Z) by lia.
  assert (Hall : Forall (fun r => 0 <= r) [0; 12; 24])
    by (repeat constructor; lra).
  destruct (rate_comparison_pointwise 500000 36 [0; 12; 24] HP HN Hall)
    as (results & E & L & _).
  repeat split; try assumption. exists results. split; assumption.
Defined.

(** The arguments of [rate_comparison] are validated by the schedules it
    computes: with an invalid principal or term it raises ValueError as
    soon as there is a rate, and returns the empty list when there is
    none. *)
Theorem rate_comparison_validates_lazily (p : R) (m : Z) :
  p <= 0 \/ (m < 1)%Z ->
  LoanAmortization.rate_comparison p m [] = Ok [] /\
  forall r rest,
    LoanAmortization.rate_comparison p m (r :: rest) = Raise ValueError.
Proof.
  intros Hbad. split; [reflexivity |].
  intros r rest. unfold LoanAmortization.rate_comparison. cbn [py_map].
  rewrite LoanExact.schedule_invalid by exact Hbad. reflexivity.
Qed.

Lemma rate_comparison_validates_lazily_witness :
  (-5 <= 0 \/ (0 < 1)%Z) /\
  LoanAmortization.rate_comparison (F := R) (-5) 0 [] = Ok [] /\
  LoanAmortization.rate_comparison (F := R) (-5) 0 [12] = Raise ValueError.
Proof.
  assert (Hbad : -5 <= 0 \/ (0 < 1)%Z) by (left; lra).
  split; [exact Hbad |]. split.
  - apply (rate_comparison_validates_lazily (-5) 0 Hbad).
  - apply (rate_comparison_validates_lazily (-5) 0 Hbad).
Defined.


End LoanTotals.

(** ** Time value *)

Module TimeValueLaws.

Import Exact ExactMath ExactFacts ExactSpec.
Local Open Scope R_scope.

(** Compounding for [t1] and then for [t2] years is compounding for
    [t1 + t2] years. *)
Theorem future_value_composes (pv rate t1 t2 : R) :
  -1 < rate ->
  exists fv1,
    TimeValue.future_value pv rate t1 = Ok (VFloat fv1) /\
    TimeValue.future_value fv1 rate t2
      = TimeValue.future_value pv rate (t1 + t2).
Proof.
  intros Hr. rewrite !TimeValueExact.future_value_eq by exact Hr.
  eexists. split; [reflexivity |].
  rewrite TimeValueExact.future_value_eq by exact Hr.
  rewrite Rpower_plus. do 2 f_equal. ring.
Qed.

Lemma future_value_composes_witness :
  -1 < 1 /\
  exists fv1,
    TimeValue.future_value (F := R) 100 1 2 = Ok (VFloat fv1) /\
    TimeValue.future_value fv1 1 3 = TimeValue.future_value 100 1 (2 + 3).
Proof.
  assert (Hr : -1 < 1) by lra.
  split; [exact Hr |]. exact (future_value_composes 100 1 2 3 Hr).
Defined.

Lemma Rpower_base_1 (y : R) : Rpower 1 y = 1.
Proof. unfold Rpower. rewrite ln_1, Rmult_0_r. apply exp_0. Qed.

(** In the result of [analyze] the discount factor is the inverse of the
    growth factor and turns the amount into the present value; present and
    future value multiply to the square of the amount; and at a zero rate
    or over zero years nothing changes. *)
Theorem analyze_factors (amount rate years : R) :
  -1 < rate ->
  exists res pv fv gf df,
    TimeValue.analyze amount rate years = Ok res /\
    present_value res = VFloat pv /\
    future_value res = VFloat fv /\
    growth_factor res = VFloat gf /\
    discount_factor res = VFloat df /\
    0 < gf /\
    gf * df = 1 /\
    pv = amount * df /\
    pv * fv = amount * amount /\
    (rate = 0 \/ years = 0 -> gf = 1 /\ pv = amount /\ fv = amount).
Proof.
  intros Hr. rewrite TimeValueExact.analyze_eq by exact Hr. cbv zeta.
  pose proof (TimeValueExact.Rpower_pos (1 + rate) years) as Hg.
  eexists. eexists. eexists. eexists. eexists.
  split; [reflexivity |]. cbn.
  split; [reflexivity |]. split; [reflexivity |]. split; [reflexivity |].
  split; [reflexivity |]. split; [exact Hg |].
  split; [field; lra |]. split; [field; lra |]. split; [field; lra |].
  intros Hzero.
  assert (E : Rpower (1 + rate) years = 1).
  { destruct Hzero as [-> | ->].
    - replace (1 + 0) with 1 by ring. apply Rpower_base_1.
    - apply Rpower_O. lra. }
  rewrite E. repeat split; field.
Qed.

Lemma analyze_factors_witness :
  -1 < 0 /\
  exists res pv fv gf df,
    TimeValue.analyze (F := R) 100 0 15 = Ok res /\
    present_value res = VFloat pv /\
    future_value res = VFloat fv /\
    growth_factor res = VFloat gf /\
    discount_factor res = VFloat df /\
    0 < gf /\
    gf * df = 1 /\
    pv = 100 * df /\
    pv * fv = 100 * 100 /\
    (0 = 0 \/ 15 = 0 -> gf = 1 /\ pv = 100 /\ fv = 100).
Proof.
  assert (Hr : -1 < 0) by lra.
  split; [exact Hr |]. exact (analyze_factors 100 0 15 Hr).
Defined.

(** At the rate [-1] the base [1 + rate] is zero: over a positive horizon
    the future value is 0 and discounting divides by zero; over a negative
    horizon the power itself raises. *)
Theorem total_loss_rate (x years : R) :
  (0 < years ->
   TimeValue.future_value x (-1) years = Ok (VFloat 0) /\
   TimeValue.present_value x (-1) years = Raise ZeroDivisionError) /\
  (years < 0 ->
   TimeValue.future_value x (-1) years = Raise ZeroDivisionError /\
   TimeValue.present_value x (-1) years = Raise ZeroDivisionError).
Proof.
  unfold TimeValue.future_value, TimeValue.present_value. cbn.
  replace (1 + -1) with 0 by ring. unfold Rpowf.
  rewrite (Reqb_true 0 0) by reflexivity.
  split; intros Hy; rewrite (Reqb_false years 0) by lra.
  - rewrite Rltb_false by lra. cbn. rewrite div_zero.
    split; [| reflexivity]. do 2 f_equal. ring.
  - rewrite Rltb_true by lra. split; reflexivity.
Qed.

(** [rate_sweep] over rates above [-1] returns one result per rate, in
    order, each carrying its rate and the growth factor [(1 + r)^years]. *)
Theorem time_value_rate_sweep_pointwise (pv years : R) (rates : list R) :
  Forall (fun r => -1 < r) rates ->
  exists results,
    TimeValue.rate_sweep pv years rates = Ok results /\
    length results = length rates /\
    forall i r,
      nth_error rates i = Some r ->
      exists res,
        nth_error results i = Some res /\
        rate res = r /\
        growth_factor res = VFloat (Rpower (1 + r) years) /\
        future_value res = VFloat (pv * Rpower (1 + r) years).
Proof.
  intros Hall. unfold TimeValue.rate_sweep.
  assert (Hret : returns
            (py_map (fun r => TimeValue.analyze pv r years) rates)).
  { apply Sweeps.py_map_returns.
    apply Forall_impl with (P := fun r => -1 < r); [| exact Hall].
    intros r Hr. rewrite TimeValueExact.analyze_eq by exact Hr.
    eexists. reflexivity. }
  destruct Hret as [results Hres]. exists results. split; [exact Hres |].
  destruct (Sweeps.py_map_pointwise _ _ _ Hres) as [Hlen Hpt].
  split; [exact Hlen |].
  intros i r Hnth. destruct (Hpt i r Hnth) as [res [Hi Han]].
  exists res. split; [exact Hi |].
  assert (Hr : -1 < r).
  { rewrite Forall_forall in Hall. apply Hall.
    apply nth_error_In with i. exact Hnth. }
  rewrite TimeValueExact.analyze_eq in Han by exact Hr.
  injection Han as <-. repeat split.
Qed.

Lemma time_value_rate_sweep_pointwise_witness :
  Forall (fun r => -1 < r) [0; 1] /\
  exists results,
    TimeValue.rate_sweep (F := R) 100 15 [0; 1] = Ok results /\
    length results = 2%nat.
Proof.
  assert (Hall : Forall (fun r => -1 < r) [0; 1])
    by (repeat constructor; lra).
  destruct (time_value_rate_sweep_pointwise 100 15 [0; 1] Hall) as (results & E & L & _).
  split; [exact Hall |]. exists results. split; assumption.
Defined.

End TimeValueLaws.

(** ** The bisection of [irr_bisect] *)

Module Bisection.

Import Exact ExactFacts ExactSpec.
Local Open Scope R_scope.

(** *** The bracket *)

(** The loop keeps a bracket [[lo, hi]] with [npv(lo) <> 0] and
    [npv(lo) * npv(hi) <= 0] and halves it in every iteration that does not
    return. *)
Lemma bisect_keeps_bracket (cashflows : list R) (tol : R) (n : nat) :
  0 < tol ->
  forall lo hi,
    -1 < lo -> lo <= hi ->
    npv_sum lo 0 cashflows <> 0 ->
    npv_sum lo 0 cashflows * npv_sum hi 0 cashflows <= 0 ->
    exists r,
      TimeValue.bisect cashflows tol n lo hi = Ok r /\
      lo <= r <= hi /\
      (Rabs (npv_sum r 0 cashflows) < tol \/
       exists lo' hi',
         lo <= lo' /\ lo' <= hi' /\ hi' <= hi /\
         hi' - lo' = (hi - lo) / 2 ^ n /\
         r = (lo' + hi') / 2 /\
         npv_sum lo' 0 cashflows * npv_sum hi' 0 cashflows <= 0).
Proof.
  intros Htol. induction n as [| n IH]; intros lo hi Hlo Hle Hnz Hsign.
  - cbn. rewrite div_2. eexists. split; [reflexivity |]. split; [lra |].
    right. exists lo, hi. repeat split; lra.
  - cbn [TimeValue.bisect].
    change (div (add lo hi) (of_int 2)) with (Rdiv_py (lo + hi) 2).
    rewrite div_2. cbn [bind].
    set (mid := (lo + hi) / 2).
    rewrite TimeValueExact.npv_exact by (unfold mid; lra). cbn [bind].
    change (ltb (fabs (npv_sum mid 0 cashflows)) tol)
      with (Rltb (Rabs (npv_sum mid 0 cashflows)) tol).
    destruct (Rltb_spec (Rabs (npv_sum mid 0 cashflows)) tol) as [Hret | Hgo].
    + exists mid. split; [reflexivity |]. split; [unfold mid; lra |].
      left. exact Hret.
    + rewrite TimeValueExact.npv_exact by lra. cbn [bind].
      change (ltb (mul (npv_sum lo 0 cashflows) (npv_sum mid 0 cashflows))
                (of_int 0))
        with (Rltb (npv_sum lo 0 cashflows * npv_sum mid 0 cashflows) 0).
      assert (Hval : npv_sum mid 0 cashflows <> 0).
      { intros E. rewrite E, Rabs_R0 in Hgo. lra. }
      assert (Hpow : 0 < 2 ^ n) by (apply pow_lt; lra).
      destruct (Rltb_spec (npv_sum lo 0 cashflows * npv_sum mid 0 cashflows) 0)
        as [Hneg | Hpos].
      * destruct (IH lo mid Hlo ltac:(unfold mid; lra) Hnz ltac:(lra))
          as (r & Hr & Hin & Hcases).
        exists r. split; [exact Hr |]. split; [unfold mid in Hin; lra |].
        destruct Hcases as [Hsmall | (lo' & hi' & A & B & C & D & E & G)];
          [left; exact Hsmall | right].
        exists lo', hi'. repeat split; try assumption; try (unfold mid in *; lra).
        rewrite D. unfold mid. simpl. field. lra.
      * apply Rnot_lt_le in Hpos.
        assert (Hsign' :
          npv_sum mid 0 cashflows * npv_sum hi 0 cashflows <= 0).
        { set (a := npv_sum lo 0 cashflows) in *.
          set (v := npv_sum mid 0 cashflows) in *.
          set (b := npv_sum hi 0 cashflows) in *.
          assert (Hav : 0 < a * v).
          { destruct (Rle_lt_or_eq_dec _ _ Hpos) as [H1 | H1]; [exact H1 |].
            symmetry in H1. apply Rmult_integral in H1.
            destruct H1; contradiction. }
          destruct (Rle_or_lt (v * b) 0) as [Hok | Hbad]; [exact Hok |].
          exfalso.
          assert (0 < (a * v) * (v * b)) by (apply Rmult_lt_0_compat; assumption).
          assert (0 <= v * v) by nra.
          assert ((a * v) * (v * b) = (v * v) * (a * b)) by ring.
          nra. }
        destruct (IH mid hi ltac:(unfold mid; lra) ltac:(unfold mid; lra)
                    Hval Hsign')
          as (r & Hr & Hin & Hcases).
        exists r. split; [exact Hr |]. split; [unfold mid in Hin; lra |].
        destruct Hcases as [Hsmall | (lo' & hi' & A & B & C & D & E & G)];
          [left; exact Hsmall | right].
        exists lo', hi'. repeat split; try assumption; try (unfold mid in *; lra).
        rewrite D. unfold mid. simpl. field. lra.
Qed.

(** *** A root in the bracket *)

Lemma discount_continuous (t : nat) (a : R) :
  continuity_pt (fun r => (1 + r) ^ t) a.
Proof.
  induction t as [| t IH].
  - apply continuity_pt_const. intros x y. reflexivity.
  - change (fun r => (1 + r) ^ S t)
      with (mult_fct (fun r => 1 + r) (fun r => (1 + r) ^ t)).
    apply continuity_pt_mult; [| exact IH].
    change (fun r => 1 + r) with (plus_fct (fun _ : R => 1) id).
    apply continuity_pt_plus.
    + apply continuity_pt_const. intros x y. reflexivity.
    + apply derivable_continuous_pt. apply derivable_pt_id.
Qed.

Lemma npv_continuous (cashflows : list R) :
  forall t a, -1 < a -> continuity_pt (fun r => npv_sum r t cashflows) a.
Proof.
  induction cashflows as [| cf rest IH]; intros t a Ha.
  - apply continuity_pt_const. intros x y. reflexivity.
  - change (fun r => npv_sum r t (cf :: rest))
      with (plus_fct (div_fct (fun _ : R => cf) (fun r => (1 + r) ^ t))
                     (fun r => npv_sum r (S t) rest)).
    apply continuity_pt_plus; [| apply IH; exact Ha].
    apply continuity_pt_div.
    + apply continuity_pt_const. intros x y. reflexivity.
    + apply discount_continuous.
    + apply pow_nonzero. lra.
Qed.

Lemma npv_root_between (cashflows : list R) (lo hi : R) :
  -1 < lo -> lo <= hi ->
  npv_sum lo 0 cashflows * npv_sum hi 0 cashflows <= 0 ->
  exists z, lo <= z <= hi /\ npv_sum z 0 cashflows = 0.
Proof.
  intros Hlo Hle Hsign.
  set (f := fun r => npv_sum r 0 cashflows).
  change (f lo * f hi <= 0) in Hsign. change (exists z, lo <= z <= hi /\ f z = 0).
  destruct (Req_dec_T (f lo) 0) as [E | Elo]; [exists lo; split; [lra | exact E] |].
  destruct (Req_dec_T (f hi) 0) as [E | Ehi]; [exists hi; split; [lra | exact E] |].
  assert (Hlt : lo < hi).
  { destruct (Rle_lt_or_eq_dec _ _ Hle) as [H | H]; [exact H |].
    subst hi. exfalso. assert (0 < f lo * f lo) by nra. lra. }
  assert (Hcont : forall a, lo <= a <= hi -> continuity_pt f a).
  { intros a Ha. apply npv_continuous. lra. }
  destruct (Rlt_le_dec (f lo) 0) as [Hneg | Hpos].
  - assert (0 < f hi) by nra.
    destruct (IVT_interv f lo hi Hcont Hlt Hneg H) as [z [Hz Ez]].
    exists z. split; assumption.
  - assert (Hlo' : 0 < f lo) by lra.
    assert (Hhi' : f hi < 0) by nra.
    assert (Hcont' : forall a, lo <= a <= hi -> continuity_pt (- f)%F a).
    { intros a Ha. apply continuity_pt_opp. apply Hcont. exact Ha. }
    destruct (IVT_interv (- f)%F lo hi Hcont' Hlt) as [z [Hz Ez]].
    + unfold opp_fct. lra.
    + unfold opp_fct. lra.
    + exists z. split; [exact Hz |]. unfold opp_fct in Ez. lra.
Qed.


(** *** What [irr_bisect] returns *)

(** When [npv(-0.99)] is not zero, a rate [irr_bisect] returns either makes
    [|npv|] smaller than the tolerance or lies within
    [10.99 / 2^(max_iter + 1)] of a rate in [[-0.99, 10]] at which [npv]
    is exactly zero. *)
Theorem irr_bisect_accuracy (cashflows : list R) (tol : R) (max_iter : Z)
  (r : R) :
  0 < tol ->
  npv_sum (- (99 / 100)) 0 cashflows <> 0 ->
  TimeValue.irr_bisect cashflows tol max_iter = Ok (Some r) ->
  Rabs (npv_sum r 0 cashflows) < tol \/
  exists z,
    - (99 / 100) <= z <= 10 /\
    npv_sum z 0 cashflows = 0 /\
    Rabs (r - z) <= (1099 / 100) / 2 ^ S (Z.to_nat max_iter).
Proof.
  intros Htol Hnz. rewrite TimeValueExact.irr_bisect_exact.
  destruct (Rltb_spec 0
              (npv_sum (- (99 / 100)) 0 cashflows * npv_sum 10 0 cashflows))
    as [Hpos | Hsign]; [discriminate |].
  apply Rnot_lt_le in Hsign.
  destruct (bisect_keeps_bracket cashflows tol (Z.to_nat max_iter) Htol
              (- (99 / 100)) 10 ltac:(lra) ltac:(lra) Hnz Hsign)
    as (r' & Hr' & Hin & Hcases).
  rewrite Hr'. cbn [bind]. intros E. injection E as <-.
  destruct Hcases as [Hsmall | (lo' & hi' & A & B & C & D & E & G)];
    [left; exact Hsmall | right].
  destruct (npv_root_between cashflows lo' hi' ltac:(lra) B G)
    as (z & Hz & Ez).
  exists z. split; [lra |]. split; [exact Ez |].
  assert (Hpow : 0 < 2 ^ Z.to_nat max_iter) by (apply pow_lt; lra).
  assert (Hw : (1099 / 100) / 2 ^ S (Z.to_nat max_iter) = (hi' - lo') / 2).
  { rewrite D. simpl. field. lra. }
  rewrite Hw. apply Rabs_le. subst r'. lra.
Qed.

Lemma irr_two_flows_midpoint :
  npv_sum (- (99 / 100)) 0 [-1000; 1100] = 109000 /\
  TimeValue.irr_bisect (F := R) [-1000; 1100] 1 0
    = Ok (Some ((- (99 / 100) + 10) / 2)).
Proof.
  assert (A : npv_sum (- (99 / 100)) 0 [-1000; 1100] = 109000)
    by (simpl; field).
  assert (B : npv_sum 10 0 [-1000; 1100] = -900) by (simpl; field).
  split; [exact A |].
  rewrite TimeValueExact.irr_bisect_exact. rewrite A, B.
  rewrite Rltb_false by lra. cbn. rewrite div_2. reflexivity.
Qed.

Lemma irr_bisect_accuracy_witness :
  0 < 1 /\
  npv_sum (- (99 / 100)) 0 [-1000; 1100] <> 0 /\
  (Rabs (npv_sum ((- (99 / 100) + 10) / 2) 0 [-1000; 1100]) < 1 \/
   exists z,
     - (99 / 100) <= z <= 10 /\
     npv_sum z 0 [-1000; 1100] = 0 /\
     Rabs ((- (99 / 100) + 10) / 2 - z) <= (1099 / 100) / 2 ^ S (Z.to_nat 0)).
Proof.
  assert (Htol : 0 < 1) by lra.
  destruct irr_two_flows_midpoint as [A E].
  assert (Hnz : npv_sum (- (99 / 100)) 0 [-1000; 1100] <> 0)
    by (rewrite A; lra).
  split; [exact Htol |]. split; [exact Hnz |].
  exact (irr_bisect_accuracy [-1000; 1100] 1 0 _ Htol Hnz E).
Defined.

Lemma npv_sum_zero_flows (cashflows : list R) :
  Forall (fun cf => cf = 0) cashflows ->
  forall r t, npv_sum r t cashflows = 0.
Proof.
  induction 1 as [| cf rest Hcf Hrest IH]; intros r t.
  - reflexivity.
  - cbn [npv_sum]. rewrite IH, Hcf. unfold Rdiv. ring.
Qed.

(** With no cash flows, or with cash flows that are all zero, [irr_bisect]
    does not answer [None]: for every tolerance above zero and every
    iteration count it returns the middle of the search domain, 4.505. *)
Theorem irr_bisect_without_flows (cashflows : list R) (tol : R)
  (max_iter : Z) :
  0 < tol -> Forall (fun cf => cf = 0) cashflows ->
  TimeValue.irr_bisect cashflows tol max_iter = Ok (Some (4505 / 1000)).
Proof.
  intros Htol Hzero. rewrite TimeValueExact.irr_bisect_exact.
  rewrite !(npv_sum_zero_flows cashflows Hzero).
  rewrite Rltb_false by lra.
  destruct (Z.to_nat max_iter) as [| n].
  - cbn. rewrite div_2. cbn [bind]. do 2 f_equal. lra.
  - cbn [TimeValue.bisect].
    change (div (add (- (99 / 100)) 10) (of_int 2))
      with (Rdiv_py (- (99 / 100) + 10) 2).
    rewrite div_2. cbn [bind].
    rewrite TimeValueExact.npv_exact by lra. cbn [bind].
    rewrite (npv_sum_zero_flows cashflows Hzero).
    change (ltb (fabs 0) tol) with (Rltb (Rabs 0) tol).
    rewrite Rabs_R0, Rltb_true by exact Htol. cbn [bind].
    do 2 f_equal. lra.
Qed.

Lemma irr_bisect_without_flows_witness :
  0 < 1 / 100000000 /\
  TimeValue.irr_bisect (F := R) [] (1 / 100000000) 200
    = Ok (Some (4505 / 1000)).
Proof.
  assert (Htol : 0 < 1 / 100000000) by lra.
  split; [exact Htol |].
  exact (irr_bisect_without_flows [] (1 / 100000000) 200 Htol (Forall_nil _)).
Defined.


End Bisection.
